(** * DealDine backend: deal extraction and expiry notification pipeline

    A shallow embedding of [dealdine-backend.js] and the properties of its
    part flattener, image classifier, deal extractor, scan loop and expiry
    notifier.

    Conventions of the embedding.
    - A JavaScript string is a [string]: a sequence of code units below 256.
    - A JavaScript number that holds an integer is a [Z], and [2^1024] and
      its opposite stand for [Infinity] and [-Infinity]; what the program
      computes on numbers is rounded as doubles are ([to_double]).
    - A property that may be missing ([undefined]) or [null] is an [option].
    - [throw] and [try]/[catch] are the [Completion] type below; the
      collaborators (storage, mail, extraction model, HTML parser, base64
      and JSON decoding) are parameters or outcome tables. *)

From Stdlib Require Import ZArith QArith_base List String Ascii Bool Lia.
From Stdlib Require Import Permutation Sorted.
Import ListNotations.
Open Scope string_scope.
Open Scope Z_scope.

(* ===================================================================== *)
(** * JavaScript primitives used by the program *)
(* ===================================================================== *)

Module Js.

(** The result of running a block: it returns normally or it throws. *)
Inductive Completion (A : Type) : Type :=
| Normal (a : A)
| Throw (e : string).
Arguments Normal {A} a.
Arguments Throw {A} e.

Definition bind {A B} (c : Completion A) (k : A -> Completion B) : Completion B :=
  match c with
  | Normal a => k a
  | Throw e => Throw e
  end.

(** [try { body } catch (error) { handler }] *)
Definition try_catch {A} (body : Completion A) (handler : string -> Completion A)
  : Completion A :=
  match body with
  | Normal a => Normal a
  | Throw e => handler e
  end.

(** Code that reads and writes a store of type [S] and may throw; what was
    written before a [throw] stays written. *)
Definition M (S A : Type) : Type := S -> Completion A * S.

Definition ret {S A} (a : A) : M S A := fun s => (Normal a, s).

Definition throw {S A} (e : string) : M S A := fun s => (Throw e, s).

Definition mbind {S A B} (c : M S A) (k : A -> M S B) : M S B :=
  fun s =>
    match c s with
    | (Normal a, s') => k a s'
    | (Throw e, s') => (Throw e, s')
    end.

Definition try_catch_M {S A} (body : M S A) (handler : string -> M S A) : M S A :=
  fun s =>
    match body s with
    | (Normal a, s') => (Normal a, s')
    | (Throw e, s') => handler e s'
    end.

(** [for (const x of xs) { body }], where [continue] ends [body]. *)
Fixpoint for_of {S A} (xs : list A) (body : A -> M S unit) : M S unit :=
  match xs with
  | [] => ret tt
  | x :: xs' => mbind (body x) (fun _ => for_of xs' body)
  end.

(** Truthiness of a string-or-undefined value: [undefined] and [""] are
    falsy. *)
Definition truthy_str (s : option string) : bool :=
  match s with
  | None => false
  | Some EmptyString => false
  | Some _ => true
  end.

(** [s || ''] *)
Definition or_empty (s : option string) : string :=
  match s with
  | Some s => s
  | None => ""
  end.

(** [String.prototype.startsWith] *)
Definition startsWith (s p : string) : bool := String.prefix p s.

(** [String.prototype.includes] *)
Fixpoint includes (s needle : string) : bool :=
  String.prefix needle s ||
  match s with
  | EmptyString => false
  | String _ s' => includes s' needle
  end.

(** [String.prototype.toLowerCase] on code units below 256: A-Z and the
    Latin-1 capitals move up by 32. *)
Definition lower_char (c : ascii) : ascii :=
  let n := N_of_ascii c in
  if ((65 <=? n) && (n <=? 90))%N then ascii_of_N (n + 32)
  else if ((192 <=? n) && (n <=? 222) && negb (n =? 215))%N then ascii_of_N (n + 32)
  else c.

Fixpoint toLowerCase (s : string) : string :=
  match s with
  | EmptyString => EmptyString
  | String c s' => String (lower_char c) (toLowerCase s')
  end.

(** The number value of a mathematical integer: the nearest double, a tie
    going to the even significand of 53 bits, and [Infinity] from
    [2^1024 - 2^970] on. *)
Definition infinity : Z := 2 ^ 1024.

Definition to_double (z : Z) : Z :=
  let a := Z.abs z in
  let e := Z.log2 a - 52 in
  if e <=? 0 then z
  else
    let q := Z.shiftr a e in
    let r := a - Z.shiftl q e in
    let half := Z.shiftl 1 (e - 1) in
    let q' := if (half <? r) || ((half =? r) && Z.odd q) then q + 1 else q in
    let v := Z.shiftl q' e in
    Z.sgn z * (if infinity <=? v then infinity else v).

(** [x * y] on numbers that hold integers or an infinity, when the product
    is a number: not [Infinity * 0]. *)
Definition mul (x y : Z) : Z := to_double (x * y).

(** [x * y] is [NaN]: an infinity times zero. *)
Definition mul_is_NaN (x y : Z) : bool :=
  ((infinity <=? Z.abs x) && (y =? 0)) || ((x =? 0) && (infinity <=? Z.abs y)).

(** The time zone of the process, as the language sees it: [LocalTZA t true]
    is the offset of local time at the instant [t], [LocalTZA t false] the
    offset the zone gives to the local time value [t]. *)
Definition Zone : Type := Z -> bool -> Z.

Definition msPerDay : Z := 86400000.
Definition LocalTime (LocalTZA : Zone) (t : Z) : Z := t + LocalTZA t true.
Definition UTC (LocalTZA : Zone) (t : Z) : Z := t - LocalTZA t false.

(** [d.setDate(d.getDate() + n)] on a date whose time value is [t], for the
    time values of a running clock, far from the ends of the range of
    dates: the day of the month is read and written in local time, and a
    day past the end of the month is carried into the next month, so the
    local time moves by [n] whole days and is read back in the zone. *)
Definition setDate_plus (LocalTZA : Zone) (n : Z) (t : Z) : Z :=
  UTC LocalTZA (LocalTime LocalTZA t + n * msPerDay).

(** White space skipped by [parseInt]: TAB, LF, VT, FF, CR, SP, NBSP. *)
Definition is_space (c : ascii) : bool :=
  let n := N_of_ascii c in
  ((9 <=? n) && (n <=? 13) || (n =? 32) || (n =? 160))%N.

Fixpoint skip_space (s : string) : string :=
  match s with
  | String c s' => if is_space c then skip_space s' else s
  | EmptyString => EmptyString
  end.

(** The value of a digit in the given radix, when it is one. *)
Definition digit_value (radix : Z) (c : ascii) : option Z :=
  let n := Z.of_N (N_of_ascii c) in
  let v :=
    if (48 <=? n) && (n <=? 57) then n - 48
    else if (97 <=? n) && (n <=? 122) then n - 87
    else if (65 <=? n) && (n <=? 90) then n - 55
    else 99 in
  if v <? radix then Some v else None.

(** The longest prefix of digits, read in the radix; [None] when the prefix
    is empty. [acc] is the value read so far, [seen] whether a digit was. *)
Fixpoint read_digits (radix : Z) (s : string) (acc : Z) (seen : bool) : option Z :=
  match s with
  | EmptyString => if seen then Some acc else None
  | String c s' =>
      match digit_value radix c with
      | Some v => read_digits radix s' (acc * radix + v) true
      | None => if seen then Some acc else None
      end
  end.

(** [parseInt(s)] with no radix argument; [None] is NaN. The digits give a
    mathematical integer, the result is its number value. *)
Definition parseInt (s : string) : option Z :=
  let s1 := skip_space s in
  let '(sign, s2) :=
    match s1 with
    | String "-" r => (-1, r)
    | String "+" r => (1, r)
    | _ => (1, s1)
    end in
  let '(radix, s3) :=
    match s2 with
    | String "0" (String "x" r) => (16, r)
    | String "0" (String "X" r) => (16, r)
    | _ => (10, s2)
    end in
  option_map (fun n => to_double (sign * n)) (read_digits radix s3 0 false).

(** [parseInt(attr) || 0], where a missing attribute is [undefined] and
    [parseInt(undefined)] is NaN. *)
Definition parseInt_or_0 (attr : option string) : Z :=
  match attr with
  | None => 0
  | Some s =>
      match parseInt s with
      | Some n => n
      | None => 0
      end
  end.

(** [Array.prototype.sort(cmp)]: the language requires a stable sort, and
    for a consistent comparator every stable sort gives the same array;
    insertion from the right is one. [cmp a b > 0] puts [b] first. *)
Fixpoint sort_insert {A} (cmp : A -> A -> Z) (x : A) (l : list A) : list A :=
  match l with
  | [] => [x]
  | y :: l' => if 0 <? cmp x y then y :: sort_insert cmp x l' else x :: l
  end.

Definition Array_sort {A} (cmp : A -> A -> Z) (l : list A) : list A :=
  fold_right (sort_insert cmp) [] l.

End Js.

Import Js.

Declare Scope js_scope.
Delimit Scope js_scope with js.
Notation "x <- c ;; k" := (mbind c (fun x => k))
  (at level 61, c at next level, right associativity) : js_scope.
Notation "c ;; k" := (mbind c (fun _ => k))
  (at level 61, right associativity) : js_scope.

(* ===================================================================== *)
(** * Part flattener *)
(* ===================================================================== *)

Module Mime.

(** [part.body] of a Gmail message part. *)
Record Body : Type := mkBody {
  data : option string;
  attachmentId : option string
}.

(** A node of the MIME tree. [parts] is absent on the nodes the provider
    sends without children; an array, possibly empty, otherwise. *)
#[warnings="-register-all"]
Inductive Part : Type :=
| mkPart (mimeType : option string) (body : Body) (parts : option (list Part)).

Definition mimeType (p : Part) : option string :=
  match p with mkPart m _ _ => m end.
Definition body (p : Part) : Body :=
  match p with mkPart _ b _ => b end.
Definition parts (p : Part) : option (list Part) :=
  match p with mkPart _ _ ps => ps end.

(** [getAllParts(payload, parts = [])]: the array [acc] is shared by the
    recursive calls, each leaf is pushed at its end. An array is truthy
    even when empty, so [if (payload.parts)] tests that the field is there. *)
Fixpoint getAllParts (payload : Part) (acc : list Part) : list Part :=
  match payload with
  | mkPart _ _ (Some children) =>
      fold_left (fun acc' part => getAllParts part acc') children acc
  | mkPart _ _ None => acc ++ [payload]
  end.

(** The nodes the flattener emits, written as a recursion on the tree. *)
Fixpoint emitted (p : Part) : list Part :=
  match p with
  | mkPart _ _ (Some children) => flat_map emitted children
  | mkPart _ _ None => [p]
  end.

(** The leaves in the words of the specification: a node with children
    contributes its descendants' leaves, a node without children
    contributes itself. *)
Fixpoint spec_leaves (p : Part) : list Part :=
  match p with
  | mkPart _ _ (Some (c :: cs)) => flat_map spec_leaves (c :: cs)
  | mkPart _ _ _ => [p]
  end.

(** Every [parts] array of the tree has an element. *)
Fixpoint no_empty_parts (p : Part) : bool :=
  match p with
  | mkPart _ _ (Some []) => false
  | mkPart _ _ (Some children) => forallb no_empty_parts children
  | mkPart _ _ None => true
  end.

End Mime.

Import Mime.

(* ===================================================================== *)
(** * Image classifier *)
(* ===================================================================== *)

Module Images.

(** An [<img>] element as the HTML parser hands it over: the four
    attributes the program reads, each possibly missing. *)
Record ImgElem : Type := mkImg {
  attr_src : option string;
  attr_alt : option string;
  attr_width : option string;
  attr_height : option string
}.

(** An entry of [images.dealImages] or [images.logoImages]. An entry made
    from an element has [url], [alt], [width] and [height]; an entry made
    from an inline attachment has [attachmentId] and [mimeType] only. *)
Record ImageCandidate : Type := mkCandidate {
  url : option string;
  alt : option string;
  width : option Z;
  height : option Z;
  cand_attachmentId : option string;
  cand_mimeType : option string
}.

Record ImageSet : Type := mkImages {
  dealImages : list ImageCandidate;
  logoImages : list ImageCandidate
}.

(** What the selectors can return: [null], [undefined], a string, or what
    every object inherits from [Object.prototype] under a name, a function
    or an object. *)
Inductive Selected : Type :=
| Null
| Undefined
| Url (s : string)
| Inherited (key : string).

Definition of_property (u : option string) : Selected :=
  match u with
  | Some s => Url s
  | None => Undefined
  end.

Definition elem_alt (e : ImgElem) : string := or_empty (attr_alt e).
Definition elem_width (e : ImgElem) : Z := parseInt_or_0 (attr_width e).
Definition elem_height (e : ImgElem) : Z := parseInt_or_0 (attr_height e).

(** [alt.toLowerCase().includes('logo') || width < 150 || height < 150] *)
Definition isLogo (e : ImgElem) : bool :=
  includes (toLowerCase (elem_alt e)) "logo"
  || (elem_width e <? 150) || (elem_height e <? 150).

(** [imageObj], for an element whose [src] is the string [src]. *)
Definition imageObj (src : string) (e : ImgElem) : ImageCandidate :=
  {| url := Some (if startsWith src "http" then src else "https:" ++ src);
     alt := Some (elem_alt e);
     width := Some (elem_width e);
     height := Some (elem_height e);
     cand_attachmentId := None;
     cand_mimeType := None |}.

(** The body of the [$('img').each] callback. *)
Definition each_img (images : ImageSet) (e : ImgElem) : ImageSet :=
  match attr_src e with
  | Some (String c r as src) =>
      if isLogo e
      then {| dealImages := dealImages images;
              logoImages := logoImages images ++ [imageObj src e] |}
      else {| dealImages := dealImages images ++ [imageObj src e];
              logoImages := logoImages images |}
  | _ => images
  end.

(** The entry pushed for an inline attachment. *)
Definition attachmentObj (p : Part) : ImageCandidate :=
  {| url := None; alt := None; width := None; height := None;
     cand_attachmentId := attachmentId (body p);
     cand_mimeType := mimeType p |}.

(** [part.mimeType && part.mimeType.startsWith('image/') &&
    part.body.attachmentId] *)
Definition is_inline_image (p : Part) : bool :=
  match mimeType p with
  | Some m => truthy_str (Some m) && startsWith m "image/"
              && truthy_str (attachmentId (body p))
  | None => false
  end.

Definition push_attachment (images : ImageSet) (p : Part) : ImageSet :=
  if is_inline_image p
  then {| dealImages := dealImages images ++ [attachmentObj p];
          logoImages := logoImages images |}
  else images.

Definition is_mime (m : string) (p : Part) : bool :=
  match mimeType p with
  | Some m' => String.eqb m' m
  | None => false
  end.

Section Extraction.

(** [Buffer.from(data, 'base64').toString('utf-8')] *)
Variable base64_decode : string -> string.
(** [cheerio.load(html)] followed by [$('img')]: the image elements of the
    document, in document order. *)
Variable cheerio_img : string -> list ImgElem.

(** The concatenation of the decoded bodies of the parts of one MIME
    type whose [body.data] is truthy. *)
Definition content_of (m : string) (ps : list Part) : string :=
  fold_left
    (fun content part =>
       if is_mime m part && truthy_str (data (body part))
       then content ++ base64_decode (or_empty (data (body part)))
       else content)
    ps "".

(** [extractImagesFromEmail(emailData)], given [emailData.payload]. *)
Definition extractImagesFromEmail (payload : Part) : ImageSet :=
  let images := {| dealImages := []; logoImages := [] |} in
  let ps := getAllParts payload [] in
  let htmlContent := content_of "text/html" ps in
  match htmlContent with
  | EmptyString => images
  | _ =>
      let images1 := fold_left each_img (cheerio_img htmlContent) images in
      fold_left push_attachment ps images1
  end.

End Extraction.

(** [n || 0] for a number-or-undefined property. *)
Definition or_zero (n : option Z) : Z :=
  match n with
  | Some n => n
  | None => 0
  end.

(** [(a.width || 0) * (a.height || 0)], the product of two doubles. *)
Definition size (c : ImageCandidate) : Z :=
  mul (or_zero (width c)) (or_zero (height c)).

(** The product of the two dimensions is a number. *)
Definition has_area (c : ImageCandidate) : bool :=
  negb (mul_is_NaN (or_zero (width c)) (or_zero (height c))).

(** The comparator of [selectBestDealImage]: [bSize - aSize]. The sort
    reads its sign, which rounding keeps; the difference of two equal
    infinities is [NaN], which the sort takes for 0. *)
Definition by_size_desc (a b : ImageCandidate) : Z := size b - size a.

(** [selectBestDealImage(images)] *)
Definition selectBestDealImage (images : ImageSet) : Selected :=
  match dealImages images with
  | [] => Null
  | _ =>
      match Array_sort by_size_desc (dealImages images) with
      | first :: _ => of_property (url first)
      | [] => Undefined
      end
  end.

(** The candidate whose [url] the selector reads: [sorted[0]]. *)
Definition best_candidate (l : list ImageCandidate) : option ImageCandidate :=
  hd_error (Array_sort by_size_desc l).

(** The fallback table of [getDefaultLogoUrl]. *)
Definition logos : list (string * string) :=
  [ ("McDonald's", "https://upload.wikimedia.org/wikipedia/commons/thumb/3/36/McDonald%27s_Golden_Arches.svg/200px-McDonald%27s_Golden_Arches.svg.png");
    ("Subway", "https://upload.wikimedia.org/wikipedia/commons/thumb/5/5c/Subway_2016_logo.svg/200px-Subway_2016_logo.svg.png");
    ("Domino's", "https://upload.wikimedia.org/wikipedia/commons/thumb/7/74/Dominos_pizza_logo.svg/200px-Dominos_pizza_logo.svg.png");
    ("Pizza Hut", "https://upload.wikimedia.org/wikipedia/en/thumb/d/d2/Pizza_Hut_logo.svg/200px-Pizza_Hut_logo.svg.png");
    ("Taco Bell", "https://upload.wikimedia.org/wikipedia/en/thumb/b/b3/Taco_Bell_2016.svg/200px-Taco_Bell_2016.svg.png");
    ("Chipotle", "https://upload.wikimedia.org/wikipedia/en/thumb/3/3b/Chipotle_Mexican_Grill_logo.svg/200px-Chipotle_Mexican_Grill_logo.svg.png");
    ("KFC", "https://upload.wikimedia.org/wikipedia/en/thumb/b/bf/KFC_logo.svg/200px-KFC_logo.svg.png");
    ("Wendy's", "https://upload.wikimedia.org/wikipedia/en/thumb/5/57/Wendy%27s_full_logo_2013.svg/200px-Wendy%27s_full_logo_2013.svg.png") ].

Fixpoint lookup (k : string) (t : list (string * string)) : option string :=
  match t with
  | [] => None
  | (k', v) :: t' => if String.eqb k k' then Some v else lookup k t'
  end.

(** The names under which an object literal inherits a property from
    [Object.prototype]: functions, and the prototype itself under
    [__proto__]. All of them are truthy. *)
Definition Object_prototype_keys : list string :=
  [ "constructor"; "__defineGetter__"; "__defineSetter__"; "hasOwnProperty";
    "__lookupGetter__"; "__lookupSetter__"; "isPrototypeOf";
    "propertyIsEnumerable"; "toString"; "valueOf"; "__proto__";
    "toLocaleString" ].

Definition placeholder : string :=
  "https://via.placeholder.com/200x200?text=Logo".

(** [getDefaultLogoUrl(restaurantName)]:
    [logos[restaurantName] || placeholder]. The lookup finds the own keys
    of the table and the inherited properties; [None] is a name that is no
    key of either. *)
Definition getDefaultLogoUrl (restaurantName : option string) : Selected :=
  match restaurantName with
  | Some name =>
      match lookup name logos with
      | Some u => Url u
      | None =>
          if existsb (String.eqb name) Object_prototype_keys
          then Inherited name
          else Url placeholder
      end
  | None => Url placeholder
  end.

(** [selectBestLogoImage(images, restaurantName)] *)
Definition selectBestLogoImage (images : ImageSet) (restaurantName : option string)
  : Selected :=
  match logoImages images with
  | [] => getDefaultLogoUrl restaurantName
  | first :: _ => of_property (url first)
  end.

(** The entries the callback pushes for the elements that [keep] selects:
    one for each element whose [src] is a non-empty string. *)
Definition entries (keep : ImgElem -> bool) (elems : list ImgElem)
  : list ImageCandidate :=
  flat_map (fun e =>
              match attr_src e with
              | Some (String c r as src) =>
                  if keep e then [imageObj src e] else []
              | _ => []
              end) elems.

(** The logo test read off an entry. *)
Definition entry_is_logo (c : ImageCandidate) : bool :=
  includes (toLowerCase (or_empty (alt c))) "logo"
  || (or_zero (width c) <? 150) || (or_zero (height c) <? 150).

(** An entry that stands for the element: its alt text and dimensions. *)
Definition describes (c : ImageCandidate) (e : ImgElem) : Prop :=
  alt c = Some (elem_alt e) /\ width c = Some (elem_width e)
  /\ height c = Some (elem_height e).

(** The placement in the words of the specification: an element that
    passes the logo test has an entry in [logoImages], any other element
    has one in [dealImages]. *)
Definition placed_as_specified (e : ImgElem) (images : ImageSet) : Prop :=
  if isLogo e
  then exists c, In c (logoImages images) /\ describes c e
  else exists c, In c (dealImages images) /\ describes c e.

(** An entry made from an inline attachment: no [url], [width], [height]. *)
Definition attachment_only (c : ImageCandidate) : Prop :=
  url c = None /\ width c = None /\ height c = None.

End Images.

Import Images.

(* ===================================================================== *)
(** * Deal extractor *)
(* ===================================================================== *)

Module Extract.

(** A value produced by [JSON.parse]. *)
#[warnings="-register-all"]
Inductive Json : Type :=
| JNull
| JBool (b : bool)
| JNum (q : Q)
| JStr (s : string)
| JArr (items : list Json)
| JObj (fields : list (string * Json)).

(** Truthiness of a parsed value. *)
Definition truthy (j : Json) : bool :=
  match j with
  | JNull => false
  | JBool b => b
  | JNum q => negb (Qnum q =? 0)
  | JStr EmptyString => false
  | _ => true
  end.

Fixpoint field (k : string) (fs : list (string * Json)) : option Json :=
  match fs with
  | [] => None
  | (k', v) :: fs' => if String.eqb k k' then Some v else field k fs'
  end.

(** [j.k] for a truthy [j]: the field of an object, [undefined] on a value
    that has no such property. *)
Definition prop (j : Json) (k : string) : option Json :=
  match j with
  | JObj fs => field k fs
  | _ => None
  end.

(** The suffix of [s] that starts at its first opening brace. *)
Fixpoint from_first_open (s : string) : option string :=
  match s with
  | EmptyString => None
  | String c r => if Ascii.eqb c "{" then Some s else from_first_open r
  end.

(** The prefix of [s] that ends at its last closing brace. *)
Fixpoint upto_last_close (s : string) : option string :=
  match s with
  | EmptyString => None
  | String c r =>
      match upto_last_close r with
      | Some p => Some (String c p)
      | None => if Ascii.eqb c "}" then Some (String c EmptyString) else None
      end
  end.

(** [responseText.match(/\{[\s\S]*\}/)]: the match starts at the leftmost
    opening brace that a closing brace follows and, the star being greedy,
    ends at the last closing brace. When no closing brace follows the first
    opening brace, none follows a later one. [None] is [null]; [Some m] is
    [jsonMatch[0]]. *)
Definition jsonMatch (responseText : string) : option string :=
  match from_first_open responseText with
  | Some t => upto_last_close t
  | None => None
  end.

Section Extractor.

(** [anthropic.messages.create] on the prompt built from the three
    arguments, followed by [message.content[0].text]; [Throw] when the call
    or the property access fails. *)
Variable anthropic_complete : string -> string -> string -> Completion string.
(** [JSON.parse]; [None] when it throws a SyntaxError. *)
Variable JSON_parse : string -> option Json.

(** The body of the [try] block of [parseEmailWithClaude]; [None] is
    [null]. *)
Definition parseEmailWithClaude_body (emailContent subject from : string)
  : Completion (option Json) :=
  bind (anthropic_complete emailContent subject from) (fun responseText =>
  match jsonMatch responseText with
  | Some m =>
      match JSON_parse m with
      | Some v => Normal (Some v)
      | None => Throw "SyntaxError"
      end
  | None => Normal None
  end).

(** [parseEmailWithClaude(emailContent, subject, from)] *)
Definition parseEmailWithClaude (emailContent subject from : string)
  : Completion (option Json) :=
  try_catch (parseEmailWithClaude_body emailContent subject from)
            (fun _ => Normal None).

End Extractor.

(** The code unit [ch] does not occur in [s]. *)
Fixpoint lacks (ch : ascii) (s : string) : bool :=
  match s with
  | EmptyString => true
  | String c r => negb (Ascii.eqb c ch) && lacks ch r
  end.

(** No code unit of [s] is a brace. *)
Fixpoint no_brace (s : string) : bool :=
  match s with
  | EmptyString => true
  | String c r => negb (Ascii.eqb c "{") && negb (Ascii.eqb c "}") && no_brace r
  end.

(** The text has an opening brace with a closing brace somewhere after
    it. *)
Definition has_span (text : string) : Prop :=
  exists a b c, text = a ++ "{" ++ b ++ "}" ++ c.

End Extract.

Import Extract.

(* ===================================================================== *)
(** * Deal assembler: the scan endpoint *)
(* ===================================================================== *)

Module Scan.

(** An entry of [email.payload.headers]. *)
Record Header : Type := mkHeader {
  name : string;
  value : option string
}.

(** A fetched message: its id, [payload] and [payload.headers]. *)
Record Email : Type := mkEmail {
  email_id : string;
  payload : Part;
  headers : list Header
}.

(** A row of [users] as the endpoint reads it: [gmail_tokens] is a JSONB
    column, a parsed value or, when it is NULL, [None]. *)
Record UserRow : Type := mkUserRow {
  user_id : string;
  gmail_tokens : option Json
}.

(** The object [saveDeal] hands to the storage insert. *)
Record DealInsert : Type := mkInsert {
  ins_user_id : string;
  ins_email_id : string;
  restaurant : option Json;
  deal_description : option Json;
  original_price : option Json;
  discounted_price : option Json;
  savings : option Json;
  expiry_date : option Json;
  deal_code : option Json;
  terms_and_conditions : option Json;
  deal_type : option Json;
  image_url : Selected;
  logo_url : Selected;
  is_active : bool
}.




(** [headers.find(h => h.name === n)?.value || ''] *)
Definition header_value (n : string) (hs : list Header) : string :=
  match find (fun h => String.eqb (name h) n) hs with
  | Some h => or_empty (value h)
  | None => ""
  end.

(** The restaurant name as a property key: a string is itself, an array
    of one element is the key of its element, and any other value gives a
    key that is neither in the logo table nor inherited ([None]): the text
    of a number or of a boolean, "null", "undefined", "[object Object]",
    the empty string, or a text with a comma. *)
Fixpoint key_of (j : Json) : option string :=
  match j with
  | JStr s => Some s
  | JArr [x] => key_of x
  | _ => None
  end.

Definition as_key (v : option Json) : option string :=
  match v with
  | Some j => key_of j
  | None => None
  end.

Inductive Response (Row : Type) : Type :=
| Status401
| Status500 (message : string)
| Status200 (dealsProcessed : Z) (deals : list Row).
Arguments Status401 {Row}.
Arguments Status500 {Row} message.
Arguments Status200 {Row} dealsProcessed deals.

Section Endpoint.

Local Open Scope js_scope.

(** The stored row the insert returns. *)
Variable Row : Type.
Variable base64_decode : string -> string.
Variable cheerio_img : string -> list ImgElem.
Variable anthropic_complete : string -> string -> string -> Completion string.
Variable JSON_parse : string -> option Json.
(** [getUserByEmail]: the row, [null], or a thrown storage error. *)
Variable getUserByEmail : string -> Completion (option UserRow).
(** [fetchPromotionalEmails] with the user's tokens. *)
Variable fetchPromotionalEmails : Json -> Completion (list Email).
(** The storage insert behind [saveDeal]: the stored row or an error. *)
Variable deals_insert : DealInsert -> Completion Row.

(** The store of this endpoint is the sequence of objects the storage
    insert has received. *)
Definition Calls : Type := list DealInsert.

(** The object [saveDeal] builds from [dealData], itself the literal the
    endpoint builds from [dealInfo], [imageUrl] and [logoUrl]. *)
Definition deal_row (userId emailId : string) (dealInfo : Json)
  (imageUrl logoUrl : Selected) : DealInsert :=
  {| ins_user_id := userId;
     ins_email_id := emailId;
     restaurant := prop dealInfo "restaurant";
     deal_description := prop dealInfo "dealDescription";
     original_price := prop dealInfo "originalPrice";
     discounted_price := prop dealInfo "discountedPrice";
     savings := prop dealInfo "savings";
     expiry_date := prop dealInfo "expiryDate";
     deal_code := prop dealInfo "dealCode";
     terms_and_conditions := prop dealInfo "termsAndConditions";
     deal_type := prop dealInfo "dealType";
     image_url := imageUrl;
     logo_url := logoUrl;
     is_active := true |}.

(** [saveDeal(userId, dealData)]: the insert, then [if (error) throw error]. *)
Definition saveDeal (userId emailId : string) (dealInfo : Json)
  (imageUrl logoUrl : Selected) : M Calls Row :=
  fun calls =>
    let row := deal_row userId emailId dealInfo imageUrl logoUrl in
    (deals_insert row, (calls ++ [row])%list).

(** The [try] block of the loop body; [None] is a [continue]. *)
Definition process_email (user : UserRow) (email : Email) : M Calls (option Row) :=
  let ps := getAllParts (payload email) [] in
  let emailContent := content_of base64_decode "text/plain" ps in
  match emailContent with
  | EmptyString => ret None
  | _ =>
      let subject := header_value "Subject" (headers email) in
      let from := header_value "From" (headers email) in
      match parseEmailWithClaude anthropic_complete JSON_parse
              emailContent subject from with
      | Throw e => throw e
      | Normal None => ret None
      | Normal (Some dealInfo) =>
          if negb (truthy dealInfo) then ret None
          else
            let images :=
              extractImagesFromEmail base64_decode cheerio_img (payload email) in
            let imageUrl := selectBestDealImage images in
            let logoUrl :=
              selectBestLogoImage images (as_key (prop dealInfo "restaurant")) in
            savedDeal <- saveDeal (user_id user) (email_id email) dealInfo
                           imageUrl logoUrl ;;
            ret (Some savedDeal)
      end
  end.

(** [for (const email of emails) { try { ... } catch { continue } }],
    returning [processedDeals]. *)
Fixpoint scan_loop (user : UserRow) (emails : list Email) (processedDeals : list Row)
  : M Calls (list Row) :=
  match emails with
  | [] => ret processedDeals
  | email :: rest =>
      r <- try_catch_M (process_email user email) (fun _ => ret None) ;;
      match r with
      | Some savedDeal => scan_loop user rest (processedDeals ++ [savedDeal])
      | None => scan_loop user rest processedDeals
      end
  end.

(** The handler of [POST /api/scan-deals]; [!user || !user.gmail_tokens]
    replies 401 for a missing row and for falsy tokens. *)
Definition scan_deals (userEmail : string) : M Calls (Response Row) :=
  try_catch_M
    (fun calls =>
       match getUserByEmail userEmail with
       | Throw e => (Throw e, calls)
       | Normal None => (Normal Status401, calls)
       | Normal (Some user) =>
           match gmail_tokens user with
           | None => (Normal Status401, calls)
           | Some tokens =>
               if negb (truthy tokens) then (Normal Status401, calls)
               else
                 match fetchPromotionalEmails tokens with
                 | Throw e => (Throw e, calls)
                 | Normal emails =>
                     (processedDeals <- scan_loop user emails [] ;;
                      ret (Status200 (Z.of_nat (List.length processedDeals))
                                     processedDeals)) calls
                 end
           end
       end)
    (fun error => ret (Status500 error)).

(** The draft of an email that gets as far as [saveDeal]: its plain text
    is not empty and the extractor returned a truthy value. *)
Definition draft_of (email : Email) : option Json :=
  let ps := getAllParts (payload email) [] in
  let emailContent := content_of base64_decode "text/plain" ps in
  match emailContent with
  | EmptyString => None
  | _ =>
      match parseEmailWithClaude anthropic_complete JSON_parse emailContent
              (header_value "Subject" (headers email))
              (header_value "From" (headers email)) with
      | Normal (Some dealInfo) => if truthy dealInfo then Some dealInfo else None
      | _ => None
      end
  end.

(** The row built for an email, whatever the fields of its draft. *)
Definition row_of (user : UserRow) (email : Email) : option DealInsert :=
  match draft_of email with
  | Some dealInfo =>
      let images :=
        extractImagesFromEmail base64_decode cheerio_img (payload email) in
      Some (deal_row (user_id user) (email_id email) dealInfo
              (selectBestDealImage images)
              (selectBestLogoImage images (as_key (prop dealInfo "restaurant"))))
  | None => None
  end.

(** The rows of a batch, and the stored deals among them. *)
Definition rows_of (user : UserRow) (emails : list Email) : list DealInsert :=
  flat_map (fun email => match row_of user email with
                         | Some row => [row]
                         | None => []
                         end) emails.

Definition stored_of (user : UserRow) (emails : list Email) : list Row :=
  flat_map (fun email => match row_of user email with
                         | Some row =>
                             match deals_insert row with
                             | Normal saved => [saved]
                             | Throw _ => []
                             end
                         | None => []
                         end) emails.

End Endpoint.


End Scan.

(* ===================================================================== *)
(** * Expiry notifier *)
(* ===================================================================== *)

Module Notifier.

(** A row of [users]: [id], [email], [notification_preferences] (JSONB). *)
Record User : Type := mkUser {
  id : string;
  email : string;
  notification_preferences : option Json
}.

(** A row of [deals]. Times are milliseconds since the epoch; a [DATE]
    stands for its midnight. *)
Record Deal : Type := mkDeal {
  deal_id : string;
  user_id : string;
  restaurant : string;
  deal_description : string;
  savings : Q;
  expiry_date : option Z;
  is_active : bool;
  is_notified : bool
}.

(** What the run does outside the tables, and a record of the calls that
    changed or failed to change them: a [sendMail] that delivered or
    rejected, an update that succeeded or failed, the two console lines. *)
Inductive Event : Type :=
| MailSent (to : string) (expiringDeals : list Deal)
| MailFailed (to : string) (expiringDeals : list Deal)
| Updated (dealIds : list string)
| UpdateFailed (dealIds : list string)
| ConsoleLog (to : string) (count : nat)
| ConsoleError (error : string).

(** The two tables, the events so far, and the number of collaborator
    calls made so far. *)
Record World : Type := mkWorld {
  users : list User;
  deals : list Deal;
  events : list Event;
  tick : nat
}.

(** The [{ data, error }] pair of a storage call: one of the two is set. *)
Inductive Result (A : Type) : Type :=
| Data (data : A)
| Error (error : string).
Arguments Data {A} data.
Arguments Error {A} error.

(** [user.notification_preferences?.expiringSoon], as a condition. *)
Definition expiringSoon (user : User) : bool :=
  match notification_preferences user with
  | None | Some JNull => false
  | Some prefs =>
      match prop prefs "expiringSoon" with
      | Some v => truthy v
      | None => false
      end
  end.

(** [.eq('user_id', uid).eq('is_active', true).eq('is_notified', false)
    .lte('expiry_date', horizon).not('expiry_date', 'is', null)] *)
Definition expiring (uid : string) (horizon : Z) (d : Deal) : bool :=
  String.eqb (user_id d) uid
  && Bool.eqb (is_active d) true
  && Bool.eqb (is_notified d) false
  && match expiry_date d with
     | Some e => e <=? horizon
     | None => false
     end
  && match expiry_date d with
     | Some _ => true
     | None => false
     end.

(** [.update({ is_notified: true })] on one row. *)
Definition set_notified (d : Deal) : Deal :=
  {| deal_id := deal_id d; user_id := user_id d; restaurant := restaurant d;
     deal_description := deal_description d; savings := savings d;
     expiry_date := expiry_date d; is_active := is_active d;
     is_notified := true |}.

(** [.in('id', dealIds)] *)
Definition id_in (dealIds : list string) (d : Deal) : bool :=
  existsb (String.eqb (deal_id d)) dealIds.

Definition mark_notified (dealIds : list string) (ds : list Deal) : list Deal :=
  map (fun d => if id_in dealIds d then set_notified d else d) ds.

(** [new Date()] moved on by [setDate(getDate() + 3)]: the instant at
    which the local clock of the zone shows the same time of day three
    days later. *)
Definition threeDaysFromNow (LocalTZA : Zone) (now : Z) : Z :=
  setDate_plus LocalTZA 3 now.

Definition emit (e : Event) : M World unit :=
  fun w => (Normal tt,
            {| users := users w; deals := deals w;
               events := (events w ++ [e])%list; tick := tick w |}).

Section Sweep.

Local Open Scope js_scope.

(** The fate of the run: [plan n] tells whether the collaborator call
    number [n], counted from the start of the store's life, fails. *)
Variable plan : nat -> bool.
(** The time zone of the process. *)
Variable LocalTZA : Zone.

Definition call_fails : M World bool :=
  fun w => (Normal (plan (tick w)),
            {| users := users w; deals := deals w; events := events w;
               tick := S (tick w) |}).

(** [supabase.from('users').select('id, email, notification_preferences')] *)
Definition select_users : M World (Result (list User)) :=
  failed <- call_fails ;;
  if failed then ret (Error "usersError")
  else fun w => (Normal (Data (users w)), w).

(** The query for the deals of one user that expire by [horizon]. *)
Definition select_expiring (uid : string) (horizon : Z)
  : M World (Result (list Deal)) :=
  failed <- call_fails ;;
  if failed then ret (Error "dealsError")
  else fun w => (Normal (Data (filter (expiring uid horizon) (deals w))), w).

(** [sendExpiringDealsNotification(userEmail, expiringDeals)]: one message
    that lists the deals, handed to [transporter.sendMail]. *)
Definition sendExpiringDealsNotification (userEmail : string)
  (expiringDeals : list Deal) : M World unit :=
  failed <- call_fails ;;
  if failed
  then emit (MailFailed userEmail expiringDeals) ;; throw "sendMail"
  else emit (MailSent userEmail expiringDeals).

(** [supabase.from('deals').update({ is_notified: true }).in('id', dealIds)];
    a failed update changes no row. *)
Definition update_notified (dealIds : list string) : M World (Result unit) :=
  failed <- call_fails ;;
  if failed then emit (UpdateFailed dealIds) ;; ret (Error "updateError")
  else fun w => (Normal (Data tt),
                 {| users := users w; deals := mark_notified dealIds (deals w);
                    events := (events w ++ [Updated dealIds])%list;
                    tick := tick w |}).

(** The body of the loop over the users. *)
Definition notify_user (horizon : Z) (user : User) : M World unit :=
  if negb (expiringSoon user) then ret tt
  else
    r <- select_expiring (id user) horizon ;;
    match r with
    | Error dealsError => throw dealsError
    | Data expiringDeals =>
        if (0 <? List.length expiringDeals)%nat then
          sendExpiringDealsNotification (email user) expiringDeals ;;
          let dealIds := map deal_id expiringDeals in
          _ <- update_notified dealIds ;;
          emit (ConsoleLog (email user) (List.length expiringDeals))
        else ret tt
    end.

(** [checkAndNotifyExpiringDeals()], run when the clock reads [now]. *)
Definition checkAndNotifyExpiringDeals (now : Z) : M World unit :=
  try_catch_M
    (r <- select_users ;;
     match r with
     | Error usersError => throw usersError
     | Data us =>
         let horizon := threeDaysFromNow LocalTZA now in
         for_of us (notify_user horizon)
     end)
    (fun error => emit (ConsoleError error)).

(** The handler of [POST /api/notifications/check]: the body of the reply. *)
Definition notifications_check (now : Z) : M World bool :=
  try_catch_M
    (checkAndNotifyExpiringDeals now ;; ret true)
    (fun _ => ret false).

End Sweep.

(** The world after one run. *)
Definition sweep (plan : nat -> bool) (LocalTZA : Zone) (now : Z) (w : World)
  : World :=
  snd (checkAndNotifyExpiringDeals plan LocalTZA now w).

(** The notifications of a run that went to one address. *)
Definition sent_to (addr : string) (es : list Event) : list (list Deal) :=
  flat_map (fun e => match e with
                     | MailSent to ds => if String.eqb to addr then [ds] else []
                     | _ => []
                     end) es.

(** The notifications of a run, to whatever address. *)
Definition sent_to_any (es : list Event) : list (string * list Deal) :=
  flat_map (fun e => match e with
                     | MailSent to ds => [(to, ds)]
                     | _ => []
                     end) es.

(** A mail that was sent or attempted. *)
Definition is_mail (e : Event) : bool :=
  match e with
  | MailSent _ _ | MailFailed _ _ => true
  | _ => false
  end.

(** The deals of one user. *)
Definition owned_by (uid : string) (ds : list Deal) : list Deal :=
  filter (fun d => String.eqb (user_id d) uid) ds.

(** The deals of a user that are due at the horizon. *)
Definition due (horizon : Z) (user : User) (ds : list Deal) : list Deal :=
  filter (expiring (id user) horizon) ds.




(** The world with another [deals] table, more events and more calls
    made. *)
Definition advance (w : World) (ds : list Deal) (es : list Event) (n : nat)
  : World :=
  {| users := users w; deals := ds; events := (events w ++ es)%list;
     tick := (n + tick w)%nat |}.

(** The primary keys and the unique column of the schema. *)
Definition keys_unique (w : World) : Prop :=
  NoDup (map id (users w)) /\ NoDup (map email (users w))
  /\ NoDup (map deal_id (deals w)).

(** No collaborator call fails. *)
Definition calm (plan : nat -> bool) : Prop := forall n, plan n = false.

End Notifier.

(* ===================================================================== *)
(** * What a run of the notifier may do *)
(* ===================================================================== *)

Module Views.

Import Notifier.

(** A mail, sent or rejected, is addressed to a user of the list whose
    preference is on and lists deals that are due for that user; any other
    event passes. *)
Definition mail_to_enabled_user (horizon : Z) (us : list User) (e : Event)
  : Prop :=
  match e with
  | MailSent to ds | MailFailed to ds =>
      exists u, In u us /\ email u = to /\ expiringSoon u = true
                /\ ds <> []
                /\ Forall (fun d => expiring (id u) horizon d = true) ds
  | _ => True
  end.

(** A row after a run: as it was, or with its [is_notified] set. *)
Definition kept_or_marked (d d' : Deal) : Prop :=
  d' = d \/ d' = set_notified d.

(** The deals that the mails of a run list, sent or attempted. *)
Definition mailed (es : list Event) : list Deal :=
  flat_map (fun e => match e with
                     | MailSent _ ds | MailFailed _ ds => ds
                     | _ => []
                     end) es.

End Views.

(* ===================================================================== *)
(** * Storage functions and the endpoints over them *)
(* ===================================================================== *)

Module Store.

Local Open Scope js_scope.

(** A row of [users]. A JSONB column is a parsed value, or [None] when it
    is NULL. *)
Record UserRow : Type := mkUserRow {
  id : string;
  email : string;
  gmail_tokens : option Json;
  notification_preferences : option Json
}.

(** A row of [user_restaurant_preferences]. *)
Record Preference : Type := mkPreference {
  pref_id : string;
  pref_user_id : string;
  pref_restaurant : string;
  is_selected : bool
}.

(** The three tables, the number of ids the storage has generated, and
    the number of storage calls made so far. *)
Record Db : Type := mkDb {
  users : list UserRow;
  deals : list Notifier.Deal;
  preferences : list Preference;
  issued : nat;
  tick : nat
}.

(** The [{ data, error }] pair of a storage call; [error] is the code. *)
Record Result (A : Type) : Type := mkResult {
  data : option A;
  error : option string
}.
Arguments mkResult {A} data error.
Arguments data {A} r.
Arguments error {A} r.

(** [.single()]: the row when there is exactly one, the error PGRST116
    with no data otherwise. *)
Definition single {A} (rows : list A) : Result A :=
  match rows with
  | [row] => mkResult (Some row) None
  | _ => mkResult None (Some "PGRST116")
  end.

(** The default of the [notification_preferences] column. *)
Definition default_preferences : Json :=
  JObj [("email", JBool true); ("expiringSoon", JBool true)].

(** A JSON value as a JSONB column: [null] is stored as NULL. *)
Definition as_column (v : Json) : option Json :=
  match v with
  | JNull => None
  | _ => Some v
  end.

Definition with_tokens (tokens : Json) (u : UserRow) : UserRow :=
  {| id := id u; email := email u; gmail_tokens := as_column tokens;
     notification_preferences := notification_preferences u |}.

Definition has_email (e : string) (u : UserRow) : bool := String.eqb (email u) e.

(** [.update({ is_active: false })] on one row. *)
Definition set_used (d : Notifier.Deal) : Notifier.Deal :=
  {| Notifier.deal_id := Notifier.deal_id d;
     Notifier.user_id := Notifier.user_id d;
     Notifier.restaurant := Notifier.restaurant d;
     Notifier.deal_description := Notifier.deal_description d;
     Notifier.savings := Notifier.savings d;
     Notifier.expiry_date := Notifier.expiry_date d;
     Notifier.is_active := false;
     Notifier.is_notified := Notifier.is_notified d |}.

(** The [deals] table after [.update({ is_active: false }).eq('id', dealId)]. *)
Definition use_deal (dealId : string) (ds : list Notifier.Deal)
  : list Notifier.Deal :=
  map (fun d => if String.eqb (Notifier.deal_id d) dealId then set_used d else d)
      ds.

Definition with_selected (b : bool) (p : Preference) : Preference :=
  {| pref_id := pref_id p; pref_user_id := pref_user_id p;
     pref_restaurant := pref_restaurant p; is_selected := b |}.

(** The conflict target [user_id,restaurant]. *)
Definition same_key (userId restaurant : string) (p : Preference) : bool :=
  String.eqb (pref_user_id p) userId && String.eqb (pref_restaurant p) restaurant.

(** The query-string filters of [GET /api/deals/:userEmail]: each is a
    string or missing. *)
Record Filters : Type := mkFilters {
  f_restaurant : option string;
  f_minSavings : option string;
  f_expiringSoon : option string
}.

(** The replies of the endpoints over the storage functions. *)
Inductive Reply (A : Type) : Type :=
| Json200 (body : A)
| Status404
| Status500 (message : string).
Arguments Json200 {A} body.
Arguments Status404 {A}.
Arguments Status500 {A} message.

Section Functions.

(** The fate of the storage calls: [plan n] is the error code of the call
    number [n] when that call fails. *)
Variable plan : nat -> option string.
(** [uuid_generate_v4()], as the sequence of the ids it gives. *)
Variable uuid : nat -> string.
(** The storage reading a decimal number; [None] when it rejects the
    text. *)
Variable numeric_in : string -> option Q.
(** [.order('expiry_date', { ascending: true, nullsLast: true })], in
    whatever order the storage leaves rows of one expiry date. *)
Variable order_by_expiry : list Notifier.Deal -> list Notifier.Deal.
(** The time zone of the process. *)
Variable LocalTZA : Zone.

Definition call : M Db (option string) :=
  fun db => (Normal (plan (tick db)),
             {| users := users db; deals := deals db;
                preferences := preferences db; issued := issued db;
                tick := S (tick db) |}).

(** The upsert of [storeUserTokens], with [onConflict: 'email'], followed
    by [.select().single()]. *)
Definition users_upsert (e : string) (tokens : Json) : M Db (Result UserRow) :=
  code <- call ;;
  match code with
  | Some c => ret (mkResult None (Some c))
  | None =>
      fun db =>
        let conflict := existsb (has_email e) (users db) in
        let users' :=
          if conflict
          then map (fun u => if has_email e u then with_tokens tokens u else u)
                   (users db)
          else (users db
                ++ [ {| id := uuid (issued db); email := e;
                        gmail_tokens := as_column tokens;
                        notification_preferences := Some default_preferences |} ])%list in
        (Normal (single (filter (has_email e) users')),
         {| users := users'; deals := deals db; preferences := preferences db;
            issued := if conflict then issued db else S (issued db);
            tick := tick db |})
  end.

(** [storeUserTokens(email, tokens)] *)
Definition storeUserTokens (e : string) (tokens : Json) : M Db (option UserRow) :=
  r <- users_upsert e tokens ;;
  match error r with
  | Some c => throw c
  | None => ret (data r)
  end.

(** [supabase.from('users').select('*').eq('email', email).single()] *)
Definition users_select (e : string) : M Db (Result UserRow) :=
  code <- call ;;
  match code with
  | Some c => ret (mkResult None (Some c))
  | None => fun db => (Normal (single (filter (has_email e) (users db))), db)
  end.

(** [getUserByEmail(email)]: the error PGRST116 is not thrown. *)
Definition getUserByEmail (e : string) : M Db (option UserRow) :=
  r <- users_select e ;;
  match error r with
  | Some c => if String.eqb c "PGRST116" then ret (data r) else throw c
  | None => ret (data r)
  end.

(** The conditions of the query of [getUserDeals], [minSavings] read. *)
Definition deal_passes (now : Z) (userId : string) (filters : Filters)
  (minSavings : option Q) (d : Notifier.Deal) : bool :=
  String.eqb (Notifier.user_id d) userId
  && Bool.eqb (Notifier.is_active d) true
  && (if truthy_str (f_restaurant filters)
      then String.eqb (Notifier.restaurant d) (or_empty (f_restaurant filters))
      else true)
  && match minSavings with
     | Some q => Qle_bool q (Notifier.savings d)
     | None => true
     end
  && (if truthy_str (f_expiringSoon filters)
      then match Notifier.expiry_date d with
           | Some e => e <=? Notifier.threeDaysFromNow LocalTZA now
           | None => false
           end
      else true).

(** [getUserDeals(userId, filters)], run when the clock reads [now]. *)
Definition getUserDeals (now : Z) (userId : string) (filters : Filters)
  : M Db (list Notifier.Deal) :=
  code <- call ;;
  match code with
  | Some c => throw c
  | None =>
      if truthy_str (f_minSavings filters) then
        match numeric_in (or_empty (f_minSavings filters)) with
        | Some q =>
            fun db =>
              (Normal (order_by_expiry
                         (filter (deal_passes now userId filters (Some q))
                                 (deals db))), db)
        | None => throw "22P02"
        end
      else
        fun db =>
          (Normal (order_by_expiry
                     (filter (deal_passes now userId filters None) (deals db))),
           db)
  end.

(** [markDealAsUsed(dealId)] *)
Definition markDealAsUsed (dealId : string) : M Db unit :=
  code <- call ;;
  match code with
  | Some c => throw c
  | None =>
      fun db =>
        (Normal tt,
         {| users := users db; deals := use_deal dealId (deals db);
            preferences := preferences db; issued := issued db;
            tick := tick db |})
  end.

(** [getRestaurantPreferences(userId)] *)
Definition getRestaurantPreferences (userId : string) : M Db (list Preference) :=
  code <- call ;;
  match code with
  | Some c => throw c
  | None =>
      fun db =>
        (Normal (filter (fun p => String.eqb (pref_user_id p) userId)
                        (preferences db)), db)
  end.

(** [updateRestaurantPreference(userId, restaurant, isSelected)], for a
    boolean [isSelected]: the upsert with [onConflict: 'user_id,restaurant'].
    A new row needs its user: [user_id] references [users(id)]. *)
Definition updateRestaurantPreference (userId restaurant : string)
  (isSelected : bool) : M Db unit :=
  code <- call ;;
  match code with
  | Some c => throw c
  | None =>
      fun db =>
        if existsb (same_key userId restaurant) (preferences db) then
          (Normal tt,
           {| users := users db; deals := deals db;
              preferences :=
                map (fun p => if same_key userId restaurant p
                              then with_selected isSelected p else p)
                    (preferences db);
              issued := issued db; tick := tick db |})
        else if existsb (fun u => String.eqb (id u) userId) (users db) then
          (Normal tt,
           {| users := users db; deals := deals db;
              preferences :=
                (preferences db
                 ++ [ {| pref_id := uuid (issued db); pref_user_id := userId;
                         pref_restaurant := restaurant;
                         is_selected := isSelected |} ])%list;
              issued := S (issued db); tick := tick db |})
        else (Throw "23503", db)
  end.

(** The handler of [GET /api/deals/:userEmail]. *)
Definition get_deals (now : Z) (userEmail : string) (filters : Filters)
  : M Db (Reply (list Notifier.Deal)) :=
  try_catch_M
    (user <- getUserByEmail userEmail ;;
     match user with
     | None => ret Status404
     | Some u =>
         ds <- getUserDeals now (id u) filters ;;
         ret (Json200 ds)
     end)
    (fun e => ret (Status500 e)).

(** The handler of [POST /api/deals/:dealId/use]. *)
Definition post_use (dealId : string) : M Db (Reply bool) :=
  try_catch_M
    (markDealAsUsed dealId ;; ret (Json200 true))
    (fun e => ret (Status500 e)).

(** The handler of [POST /api/preferences/restaurants]. *)
Definition post_preference (userEmail restaurant : string) (isSelected : bool)
  : M Db (Reply bool) :=
  try_catch_M
    (user <- getUserByEmail userEmail ;;
     match user with
     | None => ret Status404
     | Some u =>
         updateRestaurantPreference (id u) restaurant isSelected ;;
         ret (Json200 true)
     end)
    (fun e => ret (Status500 e)).

(** The handler of [GET /api/preferences/restaurants/:userEmail]. *)
Definition get_preferences (userEmail : string) : M Db (Reply (list Preference)) :=
  try_catch_M
    (user <- getUserByEmail userEmail ;;
     match user with
     | None => ret Status404
     | Some u =>
         ps <- getRestaurantPreferences (id u) ;;
         ret (Json200 ps)
     end)
    (fun e => ret (Status500 e)).

End Functions.

(** The tables of a store, without its counters. *)
Definition same_tables (a b : Db) : Prop :=
  users a = users b /\ deals a = deals b /\ preferences a = preferences b.

End Store.

(* ===================================================================== *)
(** * Keys of the preference table *)
(* ===================================================================== *)

Module Keys.

(** The unique key [(user_id, restaurant)] of a preference row. *)
Definition pref_key (p : Store.Preference) : string * string :=
  (Store.pref_user_id p, Store.pref_restaurant p).

End Keys.

(* ===================================================================== *)
(** * Sample inputs *)
(* ===================================================================== *)

Module Samples.

Definition no_body : Body := mkBody None None.

(** A container whose [parts] array is there and empty. *)
Definition empty_multipart : Part :=
  mkPart (Some "multipart/mixed") no_body (Some []).

Definition text_leaf (s : string) : Part :=
  mkPart (Some "text/plain") (mkBody (Some s) None) None.

Definition html_leaf (s : string) : Part :=
  mkPart (Some "text/html") (mkBody (Some s) None) None.

Definition image_leaf (att : string) : Part :=
  mkPart (Some "image/png") (mkBody None (Some att)) None.

(** multipart/mixed [ multipart/alternative [ plain, html ], image ] *)
Definition nested_message : Part :=
  mkPart (Some "multipart/mixed") no_body
    (Some [ mkPart (Some "multipart/alternative") no_body
              (Some [text_leaf "Two for one"; html_leaf "<img>"]);
            image_leaf "att-1" ]).

(** A large picture whose element has no [src] attribute. *)
Definition img_no_src : ImgElem :=
  mkImg None (Some "Burger") (Some "600") (Some "400").

Definition img_hero : ImgElem :=
  mkImg (Some "//cdn.example.com/hero.jpg") (Some "Burger") (Some "600")
        (Some "400px").

Definition img_logo : ImgElem :=
  mkImg (Some "https://cdn.example.com/brand.png") (Some "Brand LOGO")
        (Some "600") (Some "400").

Definition img_small : ImgElem :=
  mkImg (Some "https://cdn.example.com/pixel.gif") None (Some "wide") (Some "1").

Definition html_message : Part := html_leaf "<html>".

(** A decoder and a parser for the samples: the body is kept as it is, and
    the document has the given elements. *)
Definition keep_body (s : string) : string := s.
Definition document (elems : list ImgElem) (html : string) : list ImgElem := elems.

Definition cand (u : string) (w h : Z) : ImageCandidate :=
  mkCandidate (Some u) (Some EmptyString) (Some w) (Some h) None None.

Definition attachment (att : string) : ImageCandidate :=
  mkCandidate None None None None (Some att) (Some "image/png").

(** The double quote, and a quoted word. *)
Definition dq : string := String (ascii_of_nat 34) EmptyString.
Definition quoted (s : string) : string := dq ++ s ++ dq.

(** A draft with every required field, one with no restaurant. *)
Definition full_object : string :=
  "{" ++ quoted "restaurant" ++ ":" ++ quoted "KFC" ++ ","
      ++ quoted "dealDescription" ++ ":" ++ quoted "Two for one" ++ ","
      ++ quoted "savings" ++ ":8}".
Definition full_draft : Json :=
  JObj [("restaurant", JStr "KFC"); ("dealDescription", JStr "Two for one");
        ("savings", JNum (Qmake 8 1))].

Definition nameless_object : string :=
  "{" ++ quoted "restaurant" ++ ":null,"
      ++ quoted "dealDescription" ++ ":" ++ quoted "Two for one" ++ ","
      ++ quoted "savings" ++ ":8}".
Definition nameless_draft : Json :=
  JObj [("restaurant", JNull); ("dealDescription", JStr "Two for one");
        ("savings", JNum (Qmake 8 1))].

(** [JSON.parse] on the texts of the samples. *)
Definition parse_samples (s : string) : option Json :=
  if String.eqb s full_object then Some full_draft
  else if String.eqb s nameless_object then Some nameless_draft
  else None.

(** An extraction model that wraps one object in prose, and one that
    answers with the content it was given. *)
Definition wrap (object : string) (emailContent subject from : string)
  : Completion string :=
  Normal ("Here is the deal I found: " ++ object ++ " Let me know.").
Definition echo (emailContent subject from : string) : Completion string :=
  Normal emailContent.








(** The clock of the samples, in milliseconds, and one day. *)
Definition now0 : Z := 1700000000000.
Definition day : Z := 86400000.

(** A zone that keeps universal time, and the zone of New York in the
    autumn of 2023: four hours behind until the clocks go back at 06:00
    universal time on 5 November, five hours behind after. *)
Definition utc : Zone := fun _ _ => 0.
Definition new_york : Zone :=
  fun t isUTC =>
    if isUTC
    then if t <? 1699164000000 then -14400000 else -18000000
    else if t <? 1699149600000 then -14400000 else -18000000.

Definition prefs (expiringSoon : bool) : option Json :=
  Some (JObj [("email", JBool true); ("expiringSoon", JBool expiringSoon)]).

Definition alice : Notifier.User :=
  Notifier.mkUser "user-a" "alice@example.com" (prefs true).
Definition bob : Notifier.User :=
  Notifier.mkUser "user-b" "bob@example.com" (prefs true).
Definition carol : Notifier.User :=
  Notifier.mkUser "user-c" "carol@example.com" (prefs false).

(** A: due in two days; B: due in two days, already notified; C: due in
    ten days; D: a deal of bob due tomorrow; E: a deal of carol due
    tomorrow. *)
Definition deal_A : Notifier.Deal :=
  Notifier.mkDeal "deal-a" "user-a" "KFC" "Two for one" (Qmake 8 1)
    (Some (now0 + 2 * day)) true false.
Definition deal_B : Notifier.Deal :=
  Notifier.mkDeal "deal-b" "user-a" "Subway" "Free cookie" (Qmake 2 1)
    (Some (now0 + 2 * day)) true true.
Definition deal_C : Notifier.Deal :=
  Notifier.mkDeal "deal-c" "user-a" "Chipotle" "Free guacamole" (Qmake 3 1)
    (Some (now0 + 10 * day)) true false.
Definition deal_D : Notifier.Deal :=
  Notifier.mkDeal "deal-d" "user-b" "Wendy's" "Half price" (Qmake 5 1)
    (Some (now0 + 1 * day)) true false.
Definition deal_E : Notifier.Deal :=
  Notifier.mkDeal "deal-e" "user-c" "Sonic" "Free drink" (Qmake 1 1)
    (Some (now0 + 1 * day)) true false.

Definition world0 : Notifier.World :=
  Notifier.mkWorld [alice; carol; bob]
    [deal_A; deal_B; deal_C; deal_D; deal_E] [] 0.

(** X: a deal of alice that is due three days and half a second after
    the clock of the samples; and a world with alice, deal A and deal X. *)
Definition deal_X : Notifier.Deal :=
  Notifier.mkDeal "deal-x" "user-a" "KFC" "Free fries" (Qmake 2 1)
    (Some (now0 + 3 * day + 500)) true false.
Definition world_X : Notifier.World :=
  Notifier.mkWorld [alice] [deal_A; deal_X] [] 0.

(** Every call succeeds; only the call number [n] fails. *)
Definition never (n : nat) : bool := false.
Definition only (n k : nat) : bool := Nat.eqb k n.

(** A store with one user, the five deals and one preference; every
    storage call succeeds. *)
Definition calm_store (n : nat) : option string := None.
Definition uuid0 (n : nat) : string :=
  "id-" ++ String (ascii_of_nat (48 + n)) EmptyString.
Definition numeric0 (s : string) : option Q :=
  if String.eqb s "5" then Some (Qmake 5 1) else None.
Definition stored_order (l : list Notifier.Deal) : list Notifier.Deal := l.

Definition tokens0 : Json := JObj [("access_token", JStr "ya29")].
Definition row_alice : Store.UserRow :=
  Store.mkUserRow "user-a" "alice@example.com" (Some tokens0) (prefs true).
Definition pref_kfc : Store.Preference :=
  Store.mkPreference "pref-1" "user-a" "KFC" true.
Definition db0 : Store.Db :=
  Store.mkDb [row_alice] [deal_A; deal_B; deal_C; deal_D; deal_E] [pref_kfc] 0 0.

(** The store after deal A was used, and the notifier's world over it. *)
Definition db_used : Store.Db :=
  snd (Store.markDealAsUsed calm_store "deal-a" db0).
Definition world_used : Notifier.World :=
  Notifier.mkWorld [alice; carol; bob] (Store.deals db_used) [] 0.

End Samples.

(* ===================================================================== *)
(** * Properties of the number and date primitives *)
(* ===================================================================== *)

Section NumberFacts.

(** Below [2^53] every integer is a double. *)
Lemma to_double_exact z : Z.abs z < 2 ^ 53 -> to_double z = z.
Proof.
  intros Hz. unfold to_double. cbv zeta.
  destruct (Z.log2 (Z.abs z) - 52 <=? 0) eqn:He; [reflexivity|].
  apply Z.leb_gt in He. exfalso.
  assert (Ha : 0 < Z.abs z).
  { destruct (Z.eq_dec (Z.abs z) 0) as [H0|H0]; [|lia].
    rewrite H0 in He. cbn in He. lia. }
  apply Z.log2_lt_pow2 in Hz; [lia|exact Ha].
Qed.

Lemma infinity_large : 2 ^ 53 <= infinity.
Proof. unfold infinity. apply Z.pow_le_mono_r; lia. Qed.

Lemma to_double_at_least k z :
  0 <= k <= 2 ^ 53 -> k <= z -> k <= to_double z.
Proof.
  intros Hk Hz.
  destruct (Z_lt_le_dec z (2 ^ 53)) as [Hsmall|Hbig].
  - rewrite to_double_exact; [exact Hz|]. rewrite Z.abs_eq; lia.
  - unfold to_double. cbv zeta.
    destruct (Z.log2 (Z.abs z) - 52 <=? 0) eqn:He; [exact Hz|].
    apply Z.leb_gt in He.
    assert (H53 : 0 < 2 ^ 53) by (apply Z.pow_pos_nonneg; lia).
    rewrite Z.abs_eq in * by lia.
    set (e := Z.log2 z - 52) in *.
    assert (Hpos : 0 < z) by lia.
    rewrite (Z.sgn_pos z Hpos), Z.mul_1_l.
    set (q := Z.shiftr z e).
    match goal with
    | |- context [Z.shiftl (if ?c then q + 1 else q) e] =>
        set (q' := if c then q + 1 else q)
    end.
    assert (Hq : 2 ^ 52 <= q).
    { subst q. rewrite Z.shiftr_div_pow2 by lia.
      apply Z.div_le_lower_bound; [apply Z.pow_pos_nonneg; lia|].
      rewrite <- Z.pow_add_r by lia.
      replace (e + 52) with (Z.log2 z) by (subst e; lia).
      apply Z.log2_spec. exact Hpos. }
    assert (Hq' : q <= q').
    { subst q'. match goal with |- _ <= (if ?c then _ else _) => destruct c end; lia. }
    assert (Hv : 2 ^ 53 <= Z.shiftl q' e).
    { rewrite Z.shiftl_mul_pow2 by lia.
      assert (He2 : 2 ^ 1 <= 2 ^ e) by (apply Z.pow_le_mono_r; lia).
      change (2 ^ 53) with (2 ^ 52 * 2 ^ 1).
      assert (0 < 2 ^ 52) by (apply Z.pow_pos_nonneg; lia).
      apply Z.mul_le_mono_nonneg; lia. }
    pose proof infinity_large.
    destruct (infinity <=? Z.shiftl q' e); lia.
Qed.

(** Above [2^53] the doubles are the even integers, then the multiples of
    four, and so on; a tie goes to the even significand; the largest
    double is [2^1024 - 2^971]; [parseInt] rounds what it reads. *)
Example to_double_readings :
  map to_double
    [0; -5; 9007199254740992; 9007199254740993; 9007199254740995;
     9007199515875289; -9007199254740993]
  = [0; -5; 9007199254740992; 9007199254740992; 9007199254740996;
     9007199515875288; -9007199254740992]
  /\ to_double (2 ^ 1024 - 2 ^ 970 - 1) = 2 ^ 1024 - 2 ^ 971
  /\ to_double (2 ^ 1024 - 2 ^ 970) = infinity
  /\ to_double (- 2 ^ 1030) = - infinity
  /\ parseInt "9007199254740993" = Some 9007199254740992.
Proof.
  repeat split; vm_compute; reflexivity.
Qed.

(** Three days on in a zone without a change of the clocks, and from
    noon in New York on the day before the clocks go back. *)
Example threeDaysFromNow_readings :
  Notifier.threeDaysFromNow Samples.utc Samples.now0
  = Samples.now0 + 72 * 3600000
  /\ Notifier.threeDaysFromNow Samples.new_york 1699113600000
     = 1699113600000 + 73 * 3600000.
Proof.
  split; vm_compute; reflexivity.
Qed.

End NumberFacts.

(* ===================================================================== *)
(** * Properties of the part flattener *)
(* ===================================================================== *)

Section FlattenerFacts.

Import Mime.

(** Induction on the tree with the hypothesis on every child. *)
Lemma Part_ind_children (P : Part -> Prop) :
  (forall m b, P (mkPart m b None)) ->
  (forall m b children, Forall P children -> P (mkPart m b (Some children))) ->
  forall p, P p.
Proof.
  intros Hleaf Hnode.
  fix IH 1. intros [m b [children|]].
  - apply Hnode. induction children as [|c cs IHcs]; constructor.
    + apply IH.
    + exact IHcs.
  - apply Hleaf.
Qed.

Lemma fold_getAllParts children :
  Forall (fun p => forall acc, getAllParts p acc = (acc ++ emitted p)%list) children ->
  forall acc,
    fold_left (fun acc' part => getAllParts part acc') children acc
    = (acc ++ flat_map emitted children)%list.
Proof.
  induction 1 as [|c cs Hc _ IHcs]; intros acc; simpl.
  - now rewrite app_nil_r.
  - rewrite Hc, IHcs, app_assoc. reflexivity.
Qed.

(** The accumulator version computes the recursion on the tree. *)
Lemma getAllParts_emitted p :
  forall acc, getAllParts p acc = (acc ++ emitted p)%list.
Proof.
  induction p as [m b|m b children IH] using Part_ind_children; intros acc.
  - reflexivity.
  - simpl. now apply fold_getAllParts.
Qed.

(** Every emitted node lacks the [parts] field: it was pushed, not
    traversed. *)
Lemma emitted_not_traversed p :
  Forall (fun q => parts q = None) (emitted p).
Proof.
  induction p as [m b|m b children IH] using Part_ind_children.
  - simpl. constructor; [reflexivity | constructor].
  - simpl. induction IH as [|c cs Hc _ IHcs]; simpl.
    + constructor.
    + apply Forall_app. split; assumption.
Qed.

(** When no [parts] array is empty the emitted nodes are the leaves. *)
Lemma emitted_spec_leaves p :
  no_empty_parts p = true -> emitted p = spec_leaves p.
Proof.
  induction p as [m b|m b children IH] using Part_ind_children; intros Hwf.
  - reflexivity.
  - destruct children as [|c cs]; [discriminate|].
    change (flat_map emitted (c :: cs) = flat_map spec_leaves (c :: cs)).
    change (forallb no_empty_parts (c :: cs) = true) in Hwf.
    revert IH Hwf. generalize (c :: cs) as l. clear.
    induction l as [|x l IHl]; intros IH Hwf; simpl in *.
    + reflexivity.
    + apply andb_true_iff in Hwf as [Hx Hl].
      inversion IH as [|? ? Hx' Hl']; subst.
      rewrite Hx' by assumption. f_equal. now apply IHl.
Qed.

(** C9. For every MIME part tree and every accumulator, the flattener
    appends, depth first and left to right, exactly the nodes that have no
    [parts] field: a node with children contributes nothing of its own and
    only what its children contribute; a node without children contributes
    itself once; an emitted node is never one that was traversed. On a
    well-formed tree, none of whose [parts] arrays is empty, this is the
    list of leaves of the specification. A malformed node, whose [parts]
    array is there and empty, gives no leaf. *)
Theorem getAllParts_emits_nodes_without_parts :
  forall (p : Part) (acc : list Part),
    getAllParts p acc = (acc ++ emitted p)%list
    /\ Forall (fun q => parts q = None) (emitted p)
    /\ (no_empty_parts p = true -> getAllParts p [] = spec_leaves p)
    /\ (parts p = Some [] -> getAllParts p acc = acc).
Proof.
  intros p acc. split; [apply getAllParts_emitted|].
  split; [apply emitted_not_traversed|]. split.
  - intros Hwf. rewrite getAllParts_emitted. simpl.
    now apply emitted_spec_leaves.
  - destruct p as [m b ps]. cbn. now intros ->.
Qed.

Lemma getAllParts_emits_nodes_without_parts_witness :
  no_empty_parts Samples.nested_message = true
  /\ getAllParts Samples.nested_message []
     = [ Samples.text_leaf "Two for one"; Samples.html_leaf "<img>";
         Samples.image_leaf "att-1" ]
  /\ getAllParts Samples.empty_multipart [] = [].
Proof.
  split; [reflexivity|]. split.
  - rewrite (proj1 (proj2 (proj2 (getAllParts_emits_nodes_without_parts
                                    Samples.nested_message []))) eq_refl).
    reflexivity.
  - apply (proj2 (proj2 (proj2 (getAllParts_emits_nodes_without_parts
                                  Samples.empty_multipart [])))).
    reflexivity.
Defined.


End FlattenerFacts.

(* ===================================================================== *)
(** * Properties of the image classifier *)
(* ===================================================================== *)

Section ClassifierFacts.

Import Images.

(** The logo test is the disjunction of the three conditions. *)
Lemma isLogo_iff e :
  isLogo e = true <->
  includes (toLowerCase (elem_alt e)) "logo" = true
  \/ elem_width e < 150 \/ elem_height e < 150.
Proof.
  unfold isLogo. rewrite !orb_true_iff, !Z.ltb_lt. tauto.
Qed.

(** [parseInt] on attribute values: leading blanks, a sign, a hexadecimal
    prefix, trailing text; NaN when no digit is read. *)
Example parseInt_readings :
  map parseInt ["600"; " 42"; "400px"; "-5"; "+7"; "0x1F"; "12.5"; "wide";
                EmptyString; "px"]
  = [Some 600; Some 42; Some 400; Some (-5); Some 7; Some 31; Some 12; None;
     None; None].
Proof. reflexivity. Qed.

(** A missing attribute and one [parseInt] cannot read both count as 0. *)
Lemma parseInt_or_0_default attr :
  attr = None \/ (exists s, attr = Some s /\ parseInt s = None) ->
  parseInt_or_0 attr = 0.
Proof.
  intros [->|[s [-> Hs]]]; simpl; [reflexivity|now rewrite Hs].
Qed.

Lemma entry_is_logo_imageObj src e : entry_is_logo (imageObj src e) = isLogo e.
Proof. reflexivity. Qed.

Lemma fold_each_img elems :
  forall images,
    fold_left each_img elems images
    = {| dealImages := dealImages images ++ entries (fun e => negb (isLogo e)) elems;
         logoImages := logoImages images ++ entries isLogo elems |}.
Proof.
  induction elems as [|e elems IH]; intros [deal logo]; simpl.
  - now rewrite !app_nil_r.
  - rewrite IH. unfold each_img.
    destruct (attr_src e) as [[|c r]|]; simpl; try reflexivity.
    destruct (isLogo e); simpl; now rewrite <- ?app_assoc.
Qed.

Lemma fold_push_attachment ps :
  forall images,
    fold_left push_attachment ps images
    = {| dealImages := dealImages images
                       ++ map attachmentObj (filter is_inline_image ps);
         logoImages := logoImages images |}.
Proof.
  induction ps as [|p ps IH]; intros [deal logo]; simpl.
  - now rewrite app_nil_r.
  - rewrite IH. unfold push_attachment.
    destruct (is_inline_image p); simpl; [|reflexivity].
    now rewrite <- app_assoc.
Qed.

Lemma in_entries keep elems c :
  In c (entries keep elems) <->
  exists e src, In e elems /\ attr_src e = Some src /\ src <> EmptyString
                /\ keep e = true /\ c = imageObj src e.
Proof.
  unfold entries. rewrite in_flat_map. split.
  - intros [e [He Hc]].
    destruct (attr_src e) as [[|a r]|] eqn:Hsrc; try contradiction.
    destruct (keep e) eqn:Hk; [|contradiction].
    destruct Hc as [<-|[]].
    exists e, (String a r). repeat split; auto. discriminate.
  - intros [e [src [He [Hsrc [Hne [Hk ->]]]]]].
    exists e. split; [assumption|].
    rewrite Hsrc, Hk. destruct src; [congruence|]. now left.
Qed.

(** What [extractImagesFromEmail] returns, as two equations. *)
Lemma extractImagesFromEmail_lists base64_decode cheerio_img payload :
  let ps := getAllParts payload [] in
  let html := content_of base64_decode "text/html" ps in
  let images := extractImagesFromEmail base64_decode cheerio_img payload in
  (html = EmptyString -> images = {| dealImages := []; logoImages := [] |})
  /\ (html <> EmptyString ->
      logoImages images = entries isLogo (cheerio_img html)
      /\ dealImages images
         = (entries (fun e => negb (isLogo e)) (cheerio_img html)
            ++ map attachmentObj (filter is_inline_image ps))%list).
Proof.
  intros ps html images. subst images. unfold extractImagesFromEmail.
  fold ps. fold html. split.
  - intros ->. reflexivity.
  - intros Hne. destruct html as [|a r] eqn:Hhtml; [congruence|].
    rewrite fold_each_img, fold_push_attachment. simpl. split; reflexivity.
Qed.

(** C6, as the program has it. For every message whose HTML content is not
    empty, every image element of the document whose [src] is a non-empty
    string lands in exactly one of the two lists, in document order: in
    [logoImages] when its alt text contains "logo" in any letter case, or
    its width is below 150, or its height is below 150 (a missing or
    unreadable dimension counting as 0), and in [dealImages] otherwise. An
    element without [src] lands in neither list. [dealImages] ends with the
    inline attachments. *)
Theorem extractImagesFromEmail_classifies_elements_with_src :
  forall (base64_decode : string -> string)
         (cheerio_img : string -> list ImgElem) (payload : Part),
    let ps := getAllParts payload [] in
    let html := content_of base64_decode "text/html" ps in
    let images := extractImagesFromEmail base64_decode cheerio_img payload in
    html <> EmptyString ->
    logoImages images = entries isLogo (cheerio_img html)
    /\ dealImages images
       = (entries (fun e => negb (isLogo e)) (cheerio_img html)
          ++ map attachmentObj (filter is_inline_image ps))%list
    /\ (forall e src,
          In e (cheerio_img html) -> attr_src e = Some src -> src <> EmptyString ->
          (isLogo e = true <->
           includes (toLowerCase (elem_alt e)) "logo" = true
           \/ parseInt_or_0 (attr_width e) < 150
           \/ parseInt_or_0 (attr_height e) < 150)
          /\ (isLogo e = true ->
              In (imageObj src e) (logoImages images)
              /\ ~ In (imageObj src e) (dealImages images))
          /\ (isLogo e = false ->
              In (imageObj src e) (dealImages images)
              /\ ~ In (imageObj src e) (logoImages images)))
    /\ (forall c,
          In c (logoImages images) \/ In c (dealImages images) ->
          (exists e src, In e (cheerio_img html) /\ attr_src e = Some src
                         /\ src <> EmptyString /\ c = imageObj src e)
          \/ attachment_only c).
Proof.
  intros base64_decode cheerio_img payload ps html images Hne.
  destruct (extractImagesFromEmail_lists base64_decode cheerio_img payload)
    as [_ Hlists].
  destruct (Hlists Hne) as [Hlogo Hdeal]. fold ps html images in Hlogo, Hdeal.
  split; [exact Hlogo|]. split; [exact Hdeal|]. split.
  - intros e src He Hsrc Hsrcne. split; [apply isLogo_iff|]. split.
    + intros Hl. rewrite Hlogo, Hdeal. split.
      * apply in_entries. exists e, src. auto.
      * intros Hin. apply in_app_or in Hin as [Hin|Hin].
        -- apply in_entries in Hin as [e' [src' [_ [_ [_ [Hk Heq]]]]]].
           apply (f_equal entry_is_logo) in Heq.
           rewrite !entry_is_logo_imageObj in Heq.
           simpl in Hk. rewrite <- Heq, Hl in Hk. discriminate.
        -- apply in_map_iff in Hin as [p [Heq _]]. discriminate.
    + intros Hl. rewrite Hlogo, Hdeal. split.
      * apply in_or_app. left. apply in_entries. exists e, src.
        rewrite Hl. auto.
      * intros Hin.
        apply in_entries in Hin as [e' [src' [_ [_ [_ [Hk Heq]]]]]].
        apply (f_equal entry_is_logo) in Heq.
        rewrite !entry_is_logo_imageObj in Heq. congruence.
  - intros c. rewrite Hlogo, Hdeal. intros [Hin|Hin].
    + left. apply in_entries in Hin as [e [src [He [Hs [Hn [_ ->]]]]]].
      exists e, src. auto.
    + apply in_app_or in Hin as [Hin|Hin].
      * left. apply in_entries in Hin as [e [src [He [Hs [Hn [_ ->]]]]]].
        exists e, src. auto.
      * right. apply in_map_iff in Hin as [p [<- _]].
        repeat split.
Qed.

Lemma extractImagesFromEmail_classifies_elements_with_src_witness :
  let images :=
    extractImagesFromEmail Samples.keep_body
      (Samples.document [Samples.img_small; Samples.img_hero; Samples.img_logo])
      (mkPart (Some "multipart/related") Samples.no_body
         (Some [Samples.html_message; Samples.image_leaf "att-1"])) in
  map url (logoImages images)
  = [Some "https://cdn.example.com/pixel.gif";
     Some "https://cdn.example.com/brand.png"]
  /\ map url (dealImages images) = [Some "https://cdn.example.com/hero.jpg"; None].
Proof.
  pose proof
    (extractImagesFromEmail_classifies_elements_with_src Samples.keep_body
       (Samples.document [Samples.img_small; Samples.img_hero; Samples.img_logo])
       (mkPart (Some "multipart/related") Samples.no_body
          (Some [Samples.html_message; Samples.image_leaf "att-1"]))
       ltac:(discriminate)) as [Hlogo [Hdeal _]].
  cbv zeta. rewrite Hlogo, Hdeal. split; vm_compute; reflexivity.
Defined.

(** C6, as stated, fails on an image element without a [src] attribute: it
    is 600 by 400 with no "logo" in its alt text, so the specification
    places it in [dealImages], and the program places it in neither list. *)
Lemma extractImagesFromEmail_skips_element_without_src :
  let images :=
    extractImagesFromEmail Samples.keep_body
      (Samples.document [Samples.img_no_src]) Samples.html_message in
  In Samples.img_no_src
     (Samples.document [Samples.img_no_src]
        (content_of Samples.keep_body "text/html"
           (getAllParts Samples.html_message [])))
  /\ isLogo Samples.img_no_src = false
  /\ dealImages images = [] /\ logoImages images = []
  /\ ~ placed_as_specified Samples.img_no_src images.
Proof.
  cbv zeta. split; [now left|]. split; [reflexivity|].
  split; [reflexivity|]. split; [reflexivity|].
  unfold placed_as_specified.
  replace (isLogo Samples.img_no_src) with false by reflexivity.
  intros [c [[] _]].
Qed.

(** ** Selection of the best deal image *)

Lemma sort_insert_perm {A} (cmp : A -> A -> Z) x l :
  Permutation (x :: l) (sort_insert cmp x l).
Proof.
  induction l as [|y l IH]; simpl.
  - apply Permutation_refl.
  - destruct (0 <? cmp x y).
    + eapply Permutation_trans; [apply perm_swap|]. now apply perm_skip.
    + apply Permutation_refl.
Qed.

(** The sort rearranges the array and loses nothing. *)
Lemma Array_sort_perm {A} (cmp : A -> A -> Z) l :
  Permutation l (Array_sort cmp l).
Proof.
  induction l as [|x l IH]; simpl.
  - constructor.
  - eapply Permutation_trans; [|apply sort_insert_perm]. now apply perm_skip.
Qed.

Lemma Array_sort_nil {A} (cmp : A -> A -> Z) l :
  Array_sort cmp l = [] -> l = [].
Proof.
  intros H. pose proof (Array_sort_perm cmp l) as Hp. rewrite H in Hp.
  now apply Permutation_sym, Permutation_nil in Hp.
Qed.

Lemma sort_insert_sorted x l :
  Sorted (fun a b => size b <= size a) l ->
  Sorted (fun a b => size b <= size a) (sort_insert by_size_desc x l).
Proof.
  induction 1 as [|y l Hl IH Hy]; simpl.
  - repeat constructor.
  - unfold by_size_desc at 1. destruct (0 <? size y - size x) eqn:Hc.
    + apply Z.ltb_lt in Hc. constructor; [exact IH|].
      destruct l as [|z l]; simpl.
      * constructor. lia.
      * unfold by_size_desc at 1. inversion Hy; subst.
        destruct (0 <? size z - size x); constructor; lia.
    + apply Z.ltb_ge in Hc. constructor; [now constructor|].
      constructor. lia.
Qed.

(** The sorted array is in descending order of area. *)
Lemma Array_sort_sorted l :
  Sorted (fun a b => size b <= size a) (Array_sort by_size_desc l).
Proof.
  induction l as [|x l IH]; simpl; [constructor|now apply sort_insert_sorted].
Qed.

Lemma sort_insert_stable k x l :
  filter (fun c => size c =? k) (sort_insert by_size_desc x l)
  = filter (fun c => size c =? k) (x :: l).
Proof.
  induction l as [|y l IH]; [reflexivity|].
  cbn [sort_insert]. unfold by_size_desc at 1.
  destruct (0 <? size y - size x) eqn:Hc; [|reflexivity].
  apply Z.ltb_lt in Hc. cbn [filter] in *. rewrite IH.
  destruct (size y =? k) eqn:Hy, (size x =? k) eqn:Hx; try reflexivity.
  apply Z.eqb_eq in Hy, Hx. lia.
Qed.

(** The sort is stable: candidates of one area keep their order. *)
Lemma Array_sort_stable k l :
  filter (fun c => size c =? k) (Array_sort by_size_desc l)
  = filter (fun c => size c =? k) l.
Proof.
  induction l as [|x l IH]; [reflexivity|].
  cbn [Array_sort fold_right]. fold (Array_sort by_size_desc l).
  rewrite sort_insert_stable. cbn [filter]. now rewrite IH.
Qed.

(** The first element of the sorted array is the first of the largest
    elements of the array: what stands before it is strictly smaller, what
    stands after it is not larger. *)
Lemma Array_sort_first_largest l :
  forall c rest,
    Array_sort by_size_desc l = c :: rest ->
    exists pre post,
      l = (pre ++ c :: post)%list
      /\ (forall x, In x pre -> size x < size c)
      /\ (forall x, In x post -> size x <= size c).
Proof.
  induction l as [|a l IH]; intros c rest Hs; simpl in Hs; [discriminate|].
  destruct (Array_sort by_size_desc l) as [|c' r'] eqn:E.
  - apply Array_sort_nil in E. subst l. simpl in Hs.
    injection Hs as <- <-. exists [], []. repeat split; intros x [].
  - destruct (IH c' r' eq_refl) as [pre [post [Hl [Hpre Hpost]]]].
    simpl in Hs. unfold by_size_desc at 1 in Hs.
    destruct (0 <? size c' - size a) eqn:Hcmp.
    + apply Z.ltb_lt in Hcmp. injection Hs as <- <-.
      exists (a :: pre), post. split; [now rewrite Hl|]. split; [|exact Hpost].
      intros x [<-|Hx]; [lia|now apply Hpre].
    + apply Z.ltb_ge in Hcmp. injection Hs as <- <-.
      exists [], l. split; [reflexivity|]. split; [intros x []|].
      intros x Hx. rewrite Hl in Hx. apply in_app_or in Hx as [Hx|[<-|Hx]].
      * specialize (Hpre x Hx). lia.
      * lia.
      * specialize (Hpost x Hx). lia.
Qed.

Lemma best_candidate_largest l c :
  best_candidate l = Some c ->
  In c l /\ forall x, In x l -> size x <= size c.
Proof.
  unfold best_candidate. intros H.
  destruct (Array_sort by_size_desc l) as [|c' rest] eqn:E; [discriminate|].
  injection H as ->.
  destruct (Array_sort_first_largest l c rest E) as [pre [post [-> [Hpre Hpost]]]].
  split; [apply in_or_app; right; now left|].
  intros x Hx. apply in_app_or in Hx as [Hx|[<-|Hx]].
  - specialize (Hpre x Hx). lia.
  - lia.
  - now apply Hpost.
Qed.

Lemma best_candidate_some l :
  l <> [] -> exists c, best_candidate l = Some c.
Proof.
  intros Hne. unfold best_candidate.
  destruct (Array_sort by_size_desc l) as [|c rest] eqn:E.
  - now apply Array_sort_nil in E.
  - now exists c.
Qed.

Lemma NoDup_map_inj {A B} (f : A -> B) l a b :
  NoDup (map f l) -> In a l -> In b l -> f a = f b -> a = b.
Proof.
  induction l as [|x l IH]; intros Hnd Ha Hb Hf; [contradiction|].
  simpl in Hnd. inversion Hnd as [|? ? Hx Hnd']; subst.
  destruct Ha as [->|Ha], Hb as [->|Hb]; auto.
  - exfalso. apply Hx. rewrite Hf. now apply in_map.
  - exfalso. apply Hx. rewrite <- Hf. now apply in_map.
Qed.

(** C7. On candidates whose dimensions have a product, that is on every
    list but one with an infinite dimension beside a zero one:
    [selectBestDealImage] returns [null] on an empty [dealImages];
    otherwise it returns the [url] of the candidate with the largest
    [width * height] as the program computes it, in doubles, a missing
    dimension counting as 0, and among candidates with the same computed
    area that of the first one. When no two candidates have the same
    computed area, the candidate it reads is the same for every order of
    the list. The computed area is the exact product when that is below
    [2^53] in absolute value. *)
Theorem selectBestDealImage_largest_area_first_on_ties :
  forall images : ImageSet,
    Forall (fun c => has_area c = true) (dealImages images) ->
    (dealImages images = [] -> selectBestDealImage images = Null)
    /\ (dealImages images <> [] ->
        exists pre c post,
          dealImages images = (pre ++ c :: post)%list
          /\ best_candidate (dealImages images) = Some c
          /\ selectBestDealImage images = of_property (url c)
          /\ (forall x, In x pre -> size x < size c)
          /\ (forall x, In x post -> size x <= size c))
    /\ (forall images' : ImageSet,
          Permutation (dealImages images) (dealImages images') ->
          NoDup (map size (dealImages images)) ->
          best_candidate (dealImages images')
          = best_candidate (dealImages images))
    /\ (forall c,
          In c (dealImages images) ->
          Z.abs (or_zero (width c) * or_zero (height c)) < 2 ^ 53 ->
          size c = or_zero (width c) * or_zero (height c)).
Proof.
  intros [deal logo] _. simpl. split; [|split; [|split]].
  - intros ->. reflexivity.
  - intros Hne. unfold selectBestDealImage, best_candidate. simpl.
    destruct (Array_sort by_size_desc deal) as [|c rest] eqn:E.
    + now apply Array_sort_nil in E.
    + destruct (Array_sort_first_largest deal c rest E)
        as [pre [post [Hl [Hpre Hpost]]]].
      exists pre, c, post. repeat split; auto.
      destruct deal; [contradiction|reflexivity].
  - intros [deal' logo'] Hperm Hnd. simpl in *.
    destruct deal as [|d deal].
    + apply Permutation_nil in Hperm. now subst.
    + assert (Hne' : deal' <> []).
      { intros ->. now apply Permutation_sym, Permutation_nil in Hperm. }
      destruct (best_candidate_some (d :: deal) ltac:(discriminate)) as [c Hc].
      destruct (best_candidate_some deal' Hne') as [c' Hc'].
      rewrite Hc, Hc'. f_equal.
      apply best_candidate_largest in Hc as [Hin Hmax].
      apply best_candidate_largest in Hc' as [Hin' Hmax'].
      apply (NoDup_map_inj size (d :: deal)); auto.
      * eapply Permutation_in; [apply Permutation_sym; exact Hperm|exact Hin'].
      * apply Z.le_antisymm.
        -- apply Hmax. eapply Permutation_in;
             [apply Permutation_sym; exact Hperm|exact Hin'].
        -- apply Hmax'. eapply Permutation_in; [exact Hperm|exact Hin].
  - intros c _ Hsmall. unfold size, mul. now apply to_double_exact.
Qed.

Lemma selectBestDealImage_largest_area_first_on_ties_witness :
  selectBestDealImage
    {| dealImages := [Samples.cand "a" 200 200; Samples.cand "b" 400 300;
                      Samples.cand "c" 300 400; Samples.attachment "att-1"];
       logoImages := [] |} = Url "b"
  /\ best_candidate [Samples.cand "c" 300 300; Samples.cand "a" 200 200;
                     Samples.cand "b" 400 300]
     = best_candidate [Samples.cand "a" 200 200; Samples.cand "b" 400 300;
                       Samples.cand "c" 300 300]
  /\ size (Samples.cand "b" 400 300) = 120000.
Proof.
  split; [|split].
  - destruct (proj1 (proj2 (selectBestDealImage_largest_area_first_on_ties
        {| dealImages := [Samples.cand "a" 200 200; Samples.cand "b" 400 300;
                          Samples.cand "c" 300 400; Samples.attachment "att-1"];
           logoImages := [] |}
        ltac:(repeat constructor))) ltac:(discriminate))
      as [pre [c [post [_ [Hbest [Hsel _]]]]]].
    rewrite Hsel. injection Hbest as <-. reflexivity.
  - apply (proj1 (proj2 (proj2 (selectBestDealImage_largest_area_first_on_ties
        {| dealImages := [Samples.cand "a" 200 200; Samples.cand "b" 400 300;
                          Samples.cand "c" 300 300];
           logoImages := [] |}
        ltac:(repeat constructor))))
        {| dealImages := [Samples.cand "c" 300 300; Samples.cand "a" 200 200;
                          Samples.cand "b" 400 300];
           logoImages := [] |}).
    + simpl. eapply Permutation_trans;
        [|apply Permutation_sym, Permutation_cons_append].
      apply Permutation_refl.
    + vm_compute. repeat constructor; simpl; intuition discriminate.
  - apply (proj2 (proj2 (proj2 (selectBestDealImage_largest_area_first_on_ties
        {| dealImages := [Samples.cand "b" 400 300]; logoImages := [] |}
        ltac:(repeat constructor))))
        (Samples.cand "b" 400 300) (or_introl eq_refl)).
    vm_compute. reflexivity.
Defined.

(** C7, as stated, fails where two exact products differ and the doubles
    the program computes do not: the first candidate is returned although
    the second has the larger product. The same holds when the candidates
    come from the [width] and [height] attributes of two elements. *)
Lemma selectBestDealImage_equal_doubles_first_wins :
  let a := Samples.cand "https://cdn.example.com/even.jpg" 94906266 94906268 in
  let b := Samples.cand "https://cdn.example.com/odd.jpg" 94906267 94906267 in
  let elem u w h := mkImg (Some u) None (Some w) (Some h) in
  has_area a = true /\ has_area b = true
  /\ to_double 94906266 = 94906266 /\ to_double 94906267 = 94906267
  /\ to_double 94906268 = 94906268
  /\ or_zero (width a) * or_zero (height a)
     < or_zero (width b) * or_zero (height b)
  /\ size a = size b
  /\ selectBestDealImage {| dealImages := [a; b]; logoImages := [] |}
     = Url "https://cdn.example.com/even.jpg"
  /\ selectBestDealImage
       (extractImagesFromEmail Samples.keep_body
          (Samples.document
             [elem "https://cdn.example.com/even.jpg" "94906266" "94906268";
              elem "https://cdn.example.com/odd.jpg" "94906267" "94906267"])
          Samples.html_message)
     = Url "https://cdn.example.com/even.jpg".
Proof.
  cbv zeta. repeat split; vm_compute; reflexivity.
Qed.

(** C10. When [dealImages] is not empty and holds inline attachments only,
    entries with no [url], [width] or [height], [selectBestDealImage]
    returns [undefined]: neither a URL, nor the attachment, nor [null]. *)
Theorem selectBestDealImage_attachments_only_undefined :
  forall images : ImageSet,
    dealImages images <> [] ->
    Forall attachment_only (dealImages images) ->
    selectBestDealImage images = Undefined.
Proof.
  intros [deal logo] Hne Hall. simpl in *.
  unfold selectBestDealImage. simpl.
  destruct (Array_sort by_size_desc deal) as [|c rest] eqn:E.
  - now apply Array_sort_nil in E.
  - destruct (Array_sort_first_largest deal c rest E) as [pre [post [Hl _]]].
    assert (Hc : attachment_only c).
    { rewrite Forall_forall in Hall. apply Hall. rewrite Hl.
      apply in_or_app. right. now left. }
    destruct Hc as [Hurl _]. rewrite Hurl.
    destruct deal; [contradiction|reflexivity].
Qed.

Lemma selectBestDealImage_attachments_only_undefined_witness :
  selectBestDealImage
    (extractImagesFromEmail Samples.keep_body (Samples.document [Samples.img_logo])
       (mkPart (Some "multipart/related") Samples.no_body
          (Some [Samples.html_message; Samples.image_leaf "att-1";
                 Samples.image_leaf "att-2"])))
  = Undefined.
Proof.
  apply selectBestDealImage_attachments_only_undefined.
  - vm_compute. discriminate.
  - vm_compute. repeat constructor.
Defined.

End ClassifierFacts.

(* ===================================================================== *)
(** * Properties of the deal extractor *)
(* ===================================================================== *)

Section ExtractorFacts.

Import Extract.

Lemma string_app_assoc (a b c : string) : (a ++ b) ++ c = a ++ (b ++ c).
Proof.
  induction a as [|x a IH]; simpl; [reflexivity|now rewrite IH].
Qed.

Lemma from_first_open_skips pre r :
  no_brace pre = true ->
  from_first_open (pre ++ String "{" r) = Some (String "{" r).
Proof.
  induction pre as [|c pre IH]; intros Hnb; simpl in *.
  - reflexivity.
  - apply andb_true_iff in Hnb as [Hc Hnb].
    apply andb_true_iff in Hc as [Hopen _].
    apply negb_true_iff in Hopen. rewrite Hopen. now apply IH.
Qed.

Lemma upto_last_close_none post :
  no_brace post = true -> upto_last_close post = None.
Proof.
  induction post as [|c post IH]; intros Hnb; simpl in *.
  - reflexivity.
  - apply andb_true_iff in Hnb as [Hc Hnb].
    apply andb_true_iff in Hc as [_ Hclose].
    apply negb_true_iff in Hclose. now rewrite IH, Hclose.
Qed.

Lemma upto_last_close_last a post :
  no_brace post = true ->
  upto_last_close (a ++ String "}" post) = Some (a ++ "}").
Proof.
  intros Hnb. induction a as [|c a IH]; simpl.
  - now rewrite upto_last_close_none.
  - now rewrite IH.
Qed.

(** The match on an object in brace-free prose is the object. *)
Lemma jsonMatch_embedded pre mid post :
  no_brace pre = true -> no_brace post = true ->
  jsonMatch (pre ++ ("{" ++ mid ++ "}") ++ post) = Some ("{" ++ mid ++ "}").
Proof.
  intros Hpre Hpost. unfold jsonMatch.
  change ("{" ++ mid ++ "}") with (String "{" (mid ++ "}")).
  change ((String "{" (mid ++ "}")) ++ post)
    with (String "{" ((mid ++ "}") ++ post)).
  rewrite from_first_open_skips by assumption.
  rewrite string_app_assoc.
  change (String "{" (mid ++ "}" ++ post))
    with ((String "{" mid) ++ String "}" post).
  now rewrite upto_last_close_last.
Qed.

Lemma from_first_open_some s t :
  from_first_open s = Some t ->
  exists a r, s = a ++ String "{" r /\ t = String "{" r /\ lacks "{" a = true.
Proof.
  induction s as [|c s IH]; simpl; [discriminate|].
  destruct (Ascii.eqb_spec c "{") as [->|Hc].
  - intros [= <-]. now exists EmptyString, s.
  - intros H. destruct (IH H) as [a [r [-> [-> Ha]]]].
    exists (String c a), r. repeat split. simpl.
    apply Ascii.eqb_neq in Hc. now rewrite Hc.
Qed.

Lemma upto_last_close_none_lacks s :
  upto_last_close s = None -> lacks "}" s = true.
Proof.
  induction s as [|x s IH]; simpl; [reflexivity|].
  destruct (upto_last_close s); [discriminate|].
  destruct (Ascii.eqb x "}"); [discriminate|]. intros _. now apply IH.
Qed.

Lemma upto_last_close_some s m :
  upto_last_close s = Some m ->
  exists b c, m = b ++ "}" /\ s = m ++ c /\ lacks "}" c = true.
Proof.
  revert m. induction s as [|x s IH]; simpl; intros m; [discriminate|].
  destruct (upto_last_close s) as [p|] eqn:E.
  - intros [= <-]. destruct (IH p eq_refl) as [b [c [-> [-> Hc]]]].
    exists (String x b), c. repeat split. assumption.
  - destruct (Ascii.eqb_spec x "}") as [->|Hx]; [|discriminate].
    intros [= <-]. exists EmptyString, s. repeat split.
    now apply upto_last_close_none_lacks.
Qed.

(** The match is leftmost and greedy: no opening brace stands before it,
    no closing brace after it. *)
Lemma jsonMatch_leftmost_greedy text m :
  jsonMatch text = Some m ->
  exists a b c,
    text = a ++ m ++ c /\ m = "{" ++ b ++ "}"
    /\ lacks "{" a = true /\ lacks "}" c = true.
Proof.
  unfold jsonMatch. intros H.
  destruct (from_first_open text) as [t|] eqn:Ht; [|discriminate].
  destruct (from_first_open_some _ _ Ht) as [a [r [-> [-> Ha]]]].
  destruct (upto_last_close_some _ _ H) as [b [c [-> [Hr Hc]]]].
  destruct b as [|x b]; [discriminate|].
  injection Hr as <- Hr. subst r.
  exists a, b, c. repeat split; assumption.
Qed.

Lemma upto_last_close_found a c :
  upto_last_close (a ++ String "}" c) <> None.
Proof.
  induction a as [|x a IH]; simpl.
  - destruct (upto_last_close c); discriminate.
  - destruct (upto_last_close (a ++ String "}" c)); [discriminate|contradiction].
Qed.

Lemma from_first_open_found a r :
  exists y, from_first_open (a ++ String "{" r) = Some (String "{" (y ++ r)).
Proof.
  induction a as [|x a IH]; simpl.
  - now exists EmptyString.
  - destruct (Ascii.eqb_spec x "{") as [->|Hx].
    + exists (a ++ "{"). f_equal. f_equal. now rewrite string_app_assoc.
    + exact IH.
Qed.

(** The match is [null] exactly on a text without a brace span. *)
Lemma jsonMatch_none_iff text :
  jsonMatch text = None <-> ~ has_span text.
Proof.
  unfold jsonMatch, has_span. split.
  - intros Hnone [a [b [c ->]]].
    destruct (from_first_open_found a (b ++ "}" ++ c)) as [y Hy].
    change (a ++ "{" ++ b ++ "}" ++ c) with (a ++ String "{" (b ++ "}" ++ c)) in Hnone.
    rewrite Hy in Hnone.
    change (String "{" (y ++ b ++ "}" ++ c))
      with ((String "{" y) ++ b ++ String "}" c) in Hnone.
    rewrite <- string_app_assoc in Hnone.
    now apply upto_last_close_found in Hnone.
  - intros Hno. destruct (from_first_open text) as [t|] eqn:Ht; [|reflexivity].
    destruct (upto_last_close t) as [m|] eqn:Hm; [|reflexivity].
    exfalso. apply Hno.
    destruct (jsonMatch_leftmost_greedy text m) as [a [b [c [-> [-> _]]]]].
    { unfold jsonMatch. now rewrite Ht. }
    exists a, b, c. simpl. now rewrite string_app_assoc.
Qed.

(** C4. When the response is one object in braces with prose around it
    that has no brace, [parseEmailWithClaude] returns what [JSON.parse]
    gives on the object alone. When the response has no brace span, or
    [JSON.parse] rejects the matched span, or the model call fails, it
    returns [null]; in no case does it throw. *)
Theorem parseEmailWithClaude_parses_embedded_object_or_null :
  forall (anthropic_complete : string -> string -> string -> Completion string)
         (JSON_parse : string -> option Json)
         (emailContent subject from : string),
    let result :=
      parseEmailWithClaude anthropic_complete JSON_parse emailContent subject from in
    (forall pre mid post,
        anthropic_complete emailContent subject from
        = Normal (pre ++ ("{" ++ mid ++ "}") ++ post) ->
        no_brace pre = true -> no_brace post = true ->
        result = Normal (JSON_parse ("{" ++ mid ++ "}")))
    /\ (forall text,
          anthropic_complete emailContent subject from = Normal text ->
          ~ has_span text -> result = Normal None)
    /\ (forall text m,
          anthropic_complete emailContent subject from = Normal text ->
          jsonMatch text = Some m -> JSON_parse m = None ->
          result = Normal None)
    /\ (forall e,
          anthropic_complete emailContent subject from = Throw e ->
          result = Normal None)
    /\ (exists v, result = Normal v).
Proof.
  intros anthropic_complete JSON_parse emailContent subject from result.
  subst result. unfold parseEmailWithClaude, parseEmailWithClaude_body.
  repeat split.
  - intros pre mid post -> Hpre Hpost. cbv [bind].
    rewrite jsonMatch_embedded by assumption.
    destruct (JSON_parse ("{" ++ mid ++ "}")); reflexivity.
  - intros text -> Hno. simpl.
    apply jsonMatch_none_iff in Hno. now rewrite Hno.
  - intros text m -> Hm Hparse. simpl. now rewrite Hm, Hparse.
  - intros e ->. reflexivity.
  - destruct (anthropic_complete emailContent subject from) as [text|e]; simpl.
    + destruct (jsonMatch text) as [m|].
      * destruct (JSON_parse m) as [v|]; eexists; reflexivity.
      * eexists; reflexivity.
    + eexists; reflexivity.
Qed.

Lemma parseEmailWithClaude_parses_embedded_object_or_null_witness :
  parseEmailWithClaude (Samples.wrap Samples.full_object) Samples.parse_samples
    "Two for one this week" "Deals" "kfc@example.com"
  = Normal (Some Samples.full_draft)
  /\ parseEmailWithClaude Samples.echo Samples.parse_samples
       "No deal in this message" "Deals" "kfc@example.com"
     = Normal None
  /\ parseEmailWithClaude Samples.echo Samples.parse_samples
       "Malformed {restaurant: KFC} here" "Deals" "kfc@example.com"
     = Normal None.
Proof.
  split; [|split].
  - pose proof (proj1 (parseEmailWithClaude_parses_embedded_object_or_null
        (Samples.wrap Samples.full_object) Samples.parse_samples
        "Two for one this week" "Deals" "kfc@example.com")
        "Here is the deal I found: "
        (Samples.quoted "restaurant" ++ ":" ++ Samples.quoted "KFC" ++ ","
         ++ Samples.quoted "dealDescription" ++ ":"
         ++ Samples.quoted "Two for one" ++ ","
         ++ Samples.quoted "savings" ++ ":8")
        " Let me know." eq_refl eq_refl eq_refl) as H.
    rewrite H. reflexivity.
  - apply (proj1 (proj2 (parseEmailWithClaude_parses_embedded_object_or_null
        Samples.echo Samples.parse_samples
        "No deal in this message" "Deals" "kfc@example.com"))
        "No deal in this message" eq_refl).
    apply jsonMatch_none_iff. reflexivity.
  - apply (proj1 (proj2 (proj2
        (parseEmailWithClaude_parses_embedded_object_or_null
           Samples.echo Samples.parse_samples
           "Malformed {restaurant: KFC} here" "Deals" "kfc@example.com")))
        "Malformed {restaurant: KFC} here" "{restaurant: KFC}"
        eq_refl eq_refl eq_refl).
Defined.

End ExtractorFacts.

(* ===================================================================== *)
(** * Properties of the scan endpoint *)
(* ===================================================================== *)

Section ScanFacts.

Import Scan.

Variable Row : Type.
Variable base64_decode : string -> string.
Variable cheerio_img : string -> list ImgElem.
Variable anthropic_complete : string -> string -> string -> Completion string.
Variable JSON_parse : string -> option Json.
Variable getUserByEmail : string -> Completion (option UserRow).
Variable fetchPromotionalEmails : Json -> Completion (list Email).
Variable deals_insert : DealInsert -> Completion Row.

Let process := process_email Row base64_decode cheerio_img anthropic_complete
                 JSON_parse deals_insert.
Let loop := scan_loop Row base64_decode cheerio_img anthropic_complete
              JSON_parse deals_insert.
Let row := row_of base64_decode cheerio_img anthropic_complete JSON_parse.
Let rows := rows_of base64_decode cheerio_img anthropic_complete JSON_parse.
Let stored := stored_of Row base64_decode cheerio_img anthropic_complete
                JSON_parse deals_insert.

(** One turn of the loop: the row of the email, if it has one, goes to the
    storage; what the storage stores is kept; nothing is thrown. *)
Lemma process_email_caught user email calls :
  try_catch_M (process user email) (fun _ => ret None) calls
  = (Normal match row user email with
            | Some r => match deals_insert r with
                        | Normal saved => Some saved
                        | Throw _ => None
                        end
            | None => None
            end,
     (calls ++ match row user email with Some r => [r] | None => [] end)%list).
Proof.
  subst process row. unfold try_catch_M, process_email, row_of, draft_of.
  destruct (content_of base64_decode "text/plain"
              (getAllParts (payload email) [])) as [|c content].
  - cbn. now rewrite app_nil_r.
  - destruct (parseEmailWithClaude anthropic_complete JSON_parse
                (String c content) (header_value "Subject" (headers email))
                (header_value "From" (headers email))) as [[dealInfo|]|e].
    + destruct (truthy dealInfo); cbn.
      * unfold mbind, saveDeal.
        destruct (deals_insert _); reflexivity.
      * now rewrite app_nil_r.
    + cbn. now rewrite app_nil_r.
    + cbn. now rewrite app_nil_r.
Qed.

(** The loop takes every email in turn, whatever became of the ones
    before. *)
Lemma scan_loop_every_email user emails :
  forall processedDeals calls,
    loop user emails processedDeals calls
    = (Normal (processedDeals ++ stored user emails)%list,
       (calls ++ rows user emails)%list).
Proof.
  subst loop rows stored.
  induction emails as [|email emails IH]; intros processedDeals calls.
  - cbn. now rewrite !app_nil_r.
  - cbn [scan_loop]. unfold mbind at 1.
    pose proof (process_email_caught user email calls) as Hp.
    subst process row. rewrite Hp. clear Hp.
    unfold rows_of, stored_of. cbn [flat_map].
    fold (rows_of base64_decode cheerio_img anthropic_complete JSON_parse user emails).
    fold (stored_of Row base64_decode cheerio_img anthropic_complete JSON_parse
            deals_insert user emails).
    destruct (row_of base64_decode cheerio_img anthropic_complete JSON_parse
                user email) as [r|].
    + destruct (deals_insert r) as [saved|e]; rewrite IH.
      * now rewrite <- !app_assoc.
      * cbn. now rewrite <- !app_assoc.
    + rewrite IH. cbn. now rewrite app_nil_r.
Qed.

(** The reply of the endpoint: 500 for a failure before the loop, 401 for
    an unknown user, 200 with the stored deals otherwise. *)
Lemma scan_deals_reply userEmail calls :
  scan_deals Row base64_decode cheerio_img anthropic_complete JSON_parse
    getUserByEmail fetchPromotionalEmails deals_insert userEmail calls
  = match getUserByEmail userEmail with
    | Throw e => (Normal (Status500 e), calls)
    | Normal None => (Normal Status401, calls)
    | Normal (Some user) =>
        match gmail_tokens user with
        | None => (Normal Status401, calls)
        | Some tokens =>
            if negb (truthy tokens) then (Normal Status401, calls)
            else
              match fetchPromotionalEmails tokens with
              | Throw e => (Normal (Status500 e), calls)
              | Normal emails =>
                  (Normal (Status200 (Z.of_nat (List.length (stored user emails)))
                             (stored user emails)),
                   (calls ++ rows user emails)%list)
              end
        end
    end.
Proof.
  unfold scan_deals, try_catch_M.
  destruct (getUserByEmail userEmail) as [[user|]|e]; try reflexivity.
  destruct (gmail_tokens user) as [tokens|]; try reflexivity.
  destruct (truthy tokens); try reflexivity. cbn [negb].
  destruct (fetchPromotionalEmails tokens) as [emails|e]; try reflexivity.
  unfold mbind. pose proof (scan_loop_every_email user emails [] calls) as Hl.
  subst loop. rewrite Hl. reflexivity.
Qed.


End ScanFacts.



(* ===================================================================== *)
(** * Properties of the expiry notifier *)
(* ===================================================================== *)

Section NotifierFacts.

Import Notifier.

(** ** The rows and the update *)

Lemma expiring_iff uid horizon d :
  expiring uid horizon d = true <->
  user_id d = uid /\ is_active d = true /\ is_notified d = false
  /\ exists e, expiry_date d = Some e /\ e <= horizon.
Proof.
  unfold expiring.
  rewrite !andb_true_iff, String.eqb_eq, !Bool.eqb_true_iff. split.
  - intros [[[[Hu Ha] Hn] He] _].
    destruct (expiry_date d) as [e|]; [|discriminate].
    apply Z.leb_le in He. repeat split; auto. now exists e.
  - intros [Hu [Ha [Hn [e [He Hle]]]]]. rewrite He.
    apply Z.leb_le in Hle. repeat split; auto.
Qed.

Lemma expiring_set_notified uid horizon d :
  expiring uid horizon (set_notified d) = false.
Proof.
  unfold expiring. simpl. now rewrite andb_false_r.
Qed.

Lemma mark_notified_ids dealIds ds :
  map deal_id (mark_notified dealIds ds) = map deal_id ds.
Proof.
  unfold mark_notified. rewrite map_map. apply map_ext.
  intros d. now destruct (id_in dealIds d).
Qed.

Lemma mark_notified_expiry dealIds ds :
  map expiry_date (mark_notified dealIds ds) = map expiry_date ds.
Proof.
  unfold mark_notified. rewrite map_map. apply map_ext.
  intros d. now destruct (id_in dealIds d).
Qed.

(** With unique ids, the update by the ids of the due deals of a user
    marks the due deals of that user and no other row. *)
Lemma mark_notified_due horizon u ds :
  NoDup (map deal_id ds) ->
  mark_notified (map deal_id (due horizon u ds)) ds
  = map (fun d => if expiring (id u) horizon d then set_notified d else d) ds.
Proof.
  intros Hnd. unfold mark_notified. apply map_ext_in. intros d Hd.
  replace (id_in (map deal_id (due horizon u ds)) d)
    with (expiring (id u) horizon d); [reflexivity|].
  unfold id_in. destruct (expiring (id u) horizon d) eqn:He; symmetry.
  - apply existsb_exists. exists (deal_id d). split; [|apply String.eqb_refl].
    apply in_map. unfold due. apply filter_In. auto.
  - apply not_true_is_false. intros Hex.
    apply existsb_exists in Hex as [i [Hi Heq]].
    apply String.eqb_eq in Heq. subst i.
    apply in_map_iff in Hi as [d' [Hid Hd']].
    unfold due in Hd'. apply filter_In in Hd' as [Hd' He'].
    assert (d' = d) by (eapply NoDup_map_inj; eauto). subst d'. congruence.
Qed.

(** A turn on behalf of one user leaves the rows of the other users. *)
Lemma owned_by_other_turn horizon u uid ds :
  id u <> uid ->
  owned_by uid
    (map (fun d => if expiring (id u) horizon d then set_notified d else d) ds)
  = owned_by uid ds.
Proof.
  intros Hne. unfold owned_by. induction ds as [|d ds IH]; simpl; [reflexivity|].
  destruct (expiring (id u) horizon d) eqn:He.
  - apply expiring_iff in He as [Hu _]. simpl. rewrite Hu.
    apply String.eqb_neq in Hne. now rewrite Hne.
  - destruct (String.eqb (user_id d) uid); now rewrite IH.
Qed.

(** ** One turn of the loop *)

Variable plan : nat -> bool.
Variable LocalTZA : Zone.

(** The five ways the turn of a user can go: the user is skipped; the
    query fails and throws; nothing is due; the mail is rejected and
    throws; the mail is delivered and the update succeeds or fails
    unnoticed. *)
Lemma notify_user_cases horizon u w :
  notify_user plan horizon u w =
  if negb (expiringSoon u) then (Normal tt, w)
  else if plan (tick w) then (Throw "dealsError", advance w (deals w) [] 1)
  else
    match due horizon u (deals w) with
    | [] => (Normal tt, advance w (deals w) [] 1)
    | d :: ds' =>
        let dd := d :: ds' in
        if plan (S (tick w))
        then (Throw "sendMail",
              advance w (deals w) [MailFailed (email u) dd] 2)
        else if plan (S (S (tick w)))
        then (Normal tt,
              advance w (deals w)
                [MailSent (email u) dd; UpdateFailed (map deal_id dd);
                 ConsoleLog (email u) (List.length dd)] 3)
        else (Normal tt,
              advance w (mark_notified (map deal_id dd) (deals w))
                [MailSent (email u) dd; Updated (map deal_id dd);
                 ConsoleLog (email u) (List.length dd)] 3)
    end.
Proof.
  unfold notify_user. destruct (expiringSoon u); [|reflexivity].
  cbn [negb]. unfold mbind at 1. unfold select_expiring, mbind at 1.
  unfold call_fails at 1. destruct (plan (tick w)) eqn:Hq.
  - unfold ret, throw, advance. cbn. now rewrite app_nil_r.
  - cbn [tick deals users events]. fold (due horizon u (deals w)).
    destruct (due horizon u (deals w)) as [|d ds'] eqn:Hdue.
    + unfold ret, advance. cbn. now rewrite app_nil_r.
    + cbn [List.length Nat.ltb Nat.leb].
      unfold mbind, sendExpiringDealsNotification, update_notified, mbind,
        call_fails, emit, throw, ret, advance.
      cbn [tick deals users events].
      destruct (plan (S (tick w))) eqn:Hs; cbn [tick deals users events].
      * reflexivity.
      * destruct (plan (S (S (tick w)))) eqn:Hu; cbn [tick deals users events];
          rewrite <- ?app_assoc; reflexivity.
Qed.

(** The run around the loop: a failed listing of the users and a throw
    out of the loop both end in the [catch], which logs and returns. *)
Lemma checkAndNotifyExpiringDeals_cases now w :
  checkAndNotifyExpiringDeals plan LocalTZA now w =
  if plan (tick w)
  then (Normal tt,
        {| users := users w; deals := deals w;
           events := (events w ++ [ConsoleError "usersError"])%list;
           tick := S (tick w) |})
  else
    match for_of (users w) (notify_user plan (threeDaysFromNow LocalTZA now))
            {| users := users w; deals := deals w; events := events w;
               tick := S (tick w) |} with
    | (Normal a, w') => (Normal a, w')
    | (Throw e, w') =>
        (Normal tt,
         {| users := users w'; deals := deals w';
            events := (events w' ++ [ConsoleError e])%list; tick := tick w' |})
    end.
Proof.
  unfold checkAndNotifyExpiringDeals, try_catch_M, select_users, mbind,
    call_fails, ret, throw, emit.
  destruct (plan (tick w)); reflexivity.
Qed.

(** ** The loop, whatever fails *)

(** One turn, whatever fails: it leaves the rows of every other user; it
    throws only with the table unchanged; a rejected mail is the mail of
    this user and ends the turn by a throw. *)
Lemma notify_user_turn horizon u w c w1 :
  NoDup (map deal_id (deals w)) ->
  notify_user plan horizon u w = (c, w1) ->
  users w1 = users w
  /\ NoDup (map deal_id (deals w1))
  /\ (forall uid, id u <> uid ->
      owned_by uid (deals w1) = owned_by uid (deals w))
  /\ exists es,
       events w1 = (events w ++ es)%list
       /\ ((c = Normal tt /\ forall to ds, ~ In (MailFailed to ds) es)
           \/ (exists e, c = Throw e /\ deals w1 = deals w
                         /\ forall to ds, In (MailFailed to ds) es ->
                                          to = email u)).
Proof.
  intros Hnd. rewrite notify_user_cases.
  destruct (negb (expiringSoon u)).
  { intros [= <- <-]. repeat split; auto. exists []. rewrite app_nil_r.
    split; [reflexivity|]. left. split; [reflexivity|]. intros to ds []. }
  destruct (plan (tick w)).
  { intros [= <- <-]. cbn. repeat split; auto. exists [].
    split; [reflexivity|]. right. exists "dealsError".
    repeat split. intros to ds []. }
  destruct (due horizon u (deals w)) as [|d ds'] eqn:Hdue.
  { intros [= <- <-]. cbn. repeat split; auto. exists [].
    split; [reflexivity|]. left. split; [reflexivity|]. intros to ds []. }
  cbv zeta. destruct (plan (S (tick w))).
  { intros [= <- <-]. cbn. repeat split; auto. eexists.
    split; [reflexivity|]. right. exists "sendMail". repeat split.
    intros to ds [[= <- _]|[]]. reflexivity. }
  destruct (plan (S (S (tick w)))).
  { intros [= <- <-]. cbn. repeat split; auto. eexists.
    split; [reflexivity|]. left. split; [reflexivity|].
    intros to ds [H|[H|[H|[]]]]; discriminate. }
  intros [= <- <-]. unfold advance. cbn [users deals events tick].
  split; [reflexivity|]. split; [|split].
  - now rewrite mark_notified_ids.
  - intros uid Hne.
    change (deal_id d :: map deal_id ds') with (map deal_id (d :: ds')).
    rewrite <- Hdue, mark_notified_due by assumption.
    now apply owned_by_other_turn.
  - eexists. split; [reflexivity|]. left. split; [reflexivity|].
    intros to ds [H|[H|[H|[]]]]; discriminate.
Qed.

(** The loop, whatever fails: a rejected mail is the mail of a user of
    the list whose rows the loop leaves as they were. *)
Lemma for_of_notify_failed_send horizon us :
  forall w c w',
    NoDup (map id us) -> NoDup (map deal_id (deals w)) ->
    for_of us (notify_user plan horizon) w = (c, w') ->
    exists new,
      events w' = (events w ++ new)%list
      /\ (forall to ds,
            In (MailFailed to ds) new ->
            exists v, In v us /\ email v = to
                      /\ owned_by (id v) (deals w') = owned_by (id v) (deals w))
      /\ (forall uid, ~ In uid (map id us) ->
          owned_by uid (deals w') = owned_by uid (deals w)).
Proof.
  induction us as [|u rest IH]; intros w c w' Hus Hds Hrun.
  - cbn in Hrun. injection Hrun as <- <-. exists [].
    rewrite app_nil_r. split; [reflexivity|]. split; [intros to ds []|auto].
  - cbn [for_of] in Hrun. unfold mbind in Hrun.
    destruct (notify_user plan horizon u w) as [c1 w1] eqn:Hturn.
    destruct (notify_user_turn horizon u w c1 w1 Hds Hturn)
      as [_ [Hds1 [Hother [es [Hes Hcase]]]]].
    inversion Hus as [|? ? Hnotin Hrest]; subst.
    destruct Hcase as [[-> Hnomail]|[e [-> [Hsame Honly]]]].
    + destruct (IH w1 c w' Hrest Hds1 Hrun) as [new [Hnew [Hfail Hout]]].
      exists (es ++ new)%list. split; [now rewrite Hnew, Hes, app_assoc|].
      split.
      * intros to ds Hin. apply in_app_or in Hin as [Hin|Hin].
        { now apply Hnomail in Hin. }
        destruct (Hfail to ds Hin) as [v [Hv [Hto Hown]]].
        exists v. split; [now right|]. split; [assumption|].
        rewrite Hown. apply Hother. intros Heq. apply Hnotin.
        rewrite Heq. now apply in_map.
      * intros uid Hnot. rewrite Hout.
        -- apply Hother. intros Heq. apply Hnot. now left.
        -- intros Hin. apply Hnot. now right.
    + injection Hrun as <- <-. exists es. split; [assumption|]. split.
      * intros to ds Hin. exists u. split; [now left|].
        split; [symmetry; eapply Honly; eassumption|now rewrite Hsame].
      * intros uid _. now rewrite Hsame.
Qed.

(** ** The mails of a run, whatever fails *)






(** ** The loop when every call succeeds *)






Section Calm.

Hypothesis plan_calm : calm plan.




End Calm.






(** C2. Whatever fails in a run, on tables that respect the keys of the
    schema: when the mail to a user is rejected, the run leaves every row
    of that user as it was, so none of the user's deals is marked
    notified. *)
Theorem sweep_failed_send_marks_no_deal_of_the_user :
  forall (now : Z) (w : World) (u : User) (ds : list Deal) (new : list Event),
    keys_unique w -> In u (users w) ->
    events (sweep plan LocalTZA now w) = (events w ++ new)%list ->
    In (MailFailed (email u) ds) new ->
    owned_by (id u) (deals (sweep plan LocalTZA now w)) = owned_by (id u) (deals w)
    /\ map is_notified (owned_by (id u) (deals (sweep plan LocalTZA now w)))
       = map is_notified (owned_by (id u) (deals w)).
Proof.
  intros now w u ds new [Hids [Hemails Hdeals]] Hin Hev Hfail.
  cut (owned_by (id u) (deals (sweep plan LocalTZA now w)) = owned_by (id u) (deals w)).
  { intros ->. auto. }
  unfold sweep in *. rewrite checkAndNotifyExpiringDeals_cases in *.
  destruct (plan (tick w)).
  - cbn in *. apply app_inv_head in Hev. subst new.
    destruct Hfail as [H|[]]. discriminate.
  - set (w0 := {| users := users w; deals := deals w; events := events w;
                  tick := S (tick w) |}) in *.
    destruct (for_of (users w) (notify_user plan (threeDaysFromNow LocalTZA now)) w0)
      as [c w'] eqn:Hrun.
    destruct (for_of_notify_failed_send (threeDaysFromNow LocalTZA now) (users w)
                w0 c w' Hids Hdeals Hrun) as [new' [Hnew [Hfailed _]]].
    assert (Hmail : In (MailFailed (email u) ds) new').
    { destruct c as [[]|e]; cbn in Hev; rewrite Hnew in Hev; cbn in Hev.
      - apply app_inv_head in Hev. now subst new'.
      - rewrite <- app_assoc in Hev. apply app_inv_head in Hev. subst new.
        apply in_app_or in Hfail as [H|[H|[]]]; [assumption|discriminate]. }
    destruct (Hfailed _ _ Hmail) as [v [Hv [Hto Hown]]].
    assert (v = u) by (eapply NoDup_map_inj; eauto). subst v.
    destruct c as [[]|e]; cbn; exact Hown.
Qed.

(** ** Two runs in a row *)

Lemma filter_none {A} (f : A -> bool) l :
  (forall x, In x l -> f x = false) -> filter f l = [].
Proof.
  induction l as [|x l IH]; intros H; simpl; [reflexivity|].
  rewrite H by now left. apply IH. intros y Hy. apply H. now right.
Qed.

Lemma filter_empty_none {A} (f : A -> bool) l x :
  filter f l = [] -> In x l -> f x = false.
Proof.
  intros Hnil Hin. destruct (f x) eqn:Hf; [|reflexivity].
  assert (H : In x (filter f l)) by (apply filter_In; auto).
  rewrite Hnil in H. contradiction.
Qed.

(** An update leaves nothing due where nothing was due. *)
Lemma due_stays_empty horizon v dealIds ds :
  due horizon v ds = [] -> due horizon v (mark_notified dealIds ds) = [].
Proof.
  intros Hnil. unfold due, mark_notified. apply filter_none.
  intros d1 Hd1. apply in_map_iff in Hd1 as [d [<- Hd]].
  destruct (id_in dealIds d); [apply expiring_set_notified|].
  eapply filter_empty_none; eassumption.
Qed.

(** The update of the turn of a user leaves nothing due for that user. *)
Lemma due_after_own_update horizon u ds :
  due horizon u (mark_notified (map deal_id (due horizon u ds)) ds) = [].
Proof.
  unfold due at 1. unfold mark_notified. apply filter_none.
  intros d1 Hd1. apply in_map_iff in Hd1 as [d [<- Hd]].
  destruct (id_in (map deal_id (due horizon u ds)) d) eqn:Hid;
    [apply expiring_set_notified|].
  destruct (expiring (id u) horizon d) eqn:He; [|reflexivity].
  exfalso. apply not_true_iff_false in Hid. apply Hid.
  unfold id_in. apply existsb_exists. exists (deal_id d).
  split; [|apply String.eqb_refl].
  apply in_map. unfold due. apply filter_In. auto.
Qed.

(** The loop when every call succeeds, with no assumption on the keys:
    it ends normally, changes no expiry date, and leaves nothing due for
    the users of the list whose preference is on. *)
Lemma for_of_notify_calm_clears horizon us :
  calm plan ->
  forall w,
    exists w',
      for_of us (notify_user plan horizon) w = (Normal tt, w')
      /\ users w' = users w
      /\ map expiry_date (deals w') = map expiry_date (deals w)
      /\ (forall v, due horizon v (deals w) = [] ->
                    due horizon v (deals w') = [])
      /\ (forall u, In u us -> expiringSoon u = true ->
                    due horizon u (deals w') = []).
Proof.
  intros Hcalm. induction us as [|u rest IH]; intros w.
  - exists w. cbn. repeat split; auto. intros u [].
  - cbn [for_of]. unfold mbind. rewrite notify_user_cases, !Hcalm.
    assert (Hturn : exists w1,
      (if negb (expiringSoon u) then (Normal tt, w)
       else match due horizon u (deals w) with
            | [] => (Normal tt, advance w (deals w) [] 1)
            | d :: ds' =>
                let dd := d :: ds' in
                (Normal tt,
                 advance w (mark_notified (map deal_id dd) (deals w))
                   [MailSent (email u) dd; Updated (map deal_id dd);
                    ConsoleLog (email u) (List.length dd)] 3)
            end) = (Normal tt, w1)
      /\ users w1 = users w
      /\ map expiry_date (deals w1) = map expiry_date (deals w)
      /\ (forall v, due horizon v (deals w) = [] ->
                    due horizon v (deals w1) = [])
      /\ (expiringSoon u = true -> due horizon u (deals w1) = [])).
    { destruct (expiringSoon u); cbn [negb].
      - destruct (due horizon u (deals w)) as [|d ds'] eqn:Hdue.
        + eexists. split; [reflexivity|]. cbn. repeat split; auto.
        + eexists. split; [reflexivity|]. unfold advance.
          cbn [users deals events tick]. split; [reflexivity|].
          split; [apply mark_notified_expiry|]. split.
          * intros v Hv. now apply due_stays_empty.
          * intros _. rewrite <- Hdue. apply due_after_own_update.
      - exists w. repeat split; auto. discriminate. }
    destruct Hturn as [w1 [-> [Hu1 [He1 [Hstay1 Hown1]]]]].
    destruct (IH w1) as [w' [Hrun [Hu' [He' [Hstay' Hrest]]]]].
    exists w'. split; [exact Hrun|]. split; [congruence|].
    split; [congruence|]. split; [auto|].
    intros v [<-|Hv] Hen; auto.
Qed.

(** The loop when nothing is due for any user of the list, whatever
    fails: no mail, no update, no event. *)
Lemma for_of_notify_nothing_due horizon us :
  forall w c w',
    (forall u, In u us -> expiringSoon u = true ->
               due horizon u (deals w) = []) ->
    for_of us (notify_user plan horizon) w = (c, w') ->
    deals w' = deals w /\ events w' = events w /\ users w' = users w.
Proof.
  induction us as [|u rest IH]; intros w c w' Hnone Hrun.
  - cbn in Hrun. now injection Hrun as <- <-.
  - cbn [for_of] in Hrun. unfold mbind in Hrun.
    rewrite notify_user_cases in Hrun.
    assert (Hrest : forall w1, deals w1 = deals w ->
              forall v, In v rest -> expiringSoon v = true ->
                        due horizon v (deals w1) = []).
    { intros w1 -> v Hv. apply Hnone. now right. }
    destruct (expiringSoon u) eqn:Hen; cbn [negb] in Hrun.
    + rewrite (Hnone u (or_introl eq_refl) Hen) in Hrun.
      destruct (plan (tick w)).
      * injection Hrun as <- <-. cbn. now rewrite app_nil_r.
      * apply IH in Hrun; [|now apply Hrest].
        cbn in Hrun. now rewrite app_nil_r in Hrun.
    + apply IH in Hrun; [exact Hrun|now apply Hrest].
Qed.

End NotifierFacts.

Lemma keys_unique_world0 : Notifier.keys_unique Samples.world0.
Proof.
  repeat split; repeat constructor; simpl; intuition discriminate.
Qed.


Lemma sweep_failed_send_marks_no_deal_of_the_user_witness :
  let w' := Notifier.sweep (Samples.only 2) Samples.utc Samples.now0 Samples.world0 in
  Notifier.events w'
  = [Notifier.MailFailed "alice@example.com" [Samples.deal_A];
     Notifier.ConsoleError "sendMail"]
  /\ Notifier.owned_by "user-a" (Notifier.deals w')
     = [Samples.deal_A; Samples.deal_B; Samples.deal_C].
Proof.
  cbv zeta. split; [vm_compute; reflexivity|].
  apply (sweep_failed_send_marks_no_deal_of_the_user (Samples.only 2)
           Samples.utc Samples.now0 Samples.world0 Samples.alice [Samples.deal_A]
           [Notifier.MailFailed "alice@example.com" [Samples.deal_A];
            Notifier.ConsoleError "sendMail"]
           keys_unique_world0 (or_introl eq_refl)).
  - vm_compute. reflexivity.
  - now left.
Defined.

Section TwoRuns.

Import Notifier.

(** Nothing that was out of reach of a horizon is due at it. *)
Lemma due_within horizon1 horizon2 u ds :
  (forall d e, In d ds -> expiry_date d = Some e ->
               e <= horizon2 -> e <= horizon1) ->
  due horizon1 u ds = [] -> due horizon2 u ds = [].
Proof.
  intros Hquiet Hnil. unfold due. apply filter_none. intros d Hd.
  destruct (expiring (id u) horizon2 d) eqn:He; [|reflexivity].
  apply expiring_iff in He as [Hu [Ha [Hn [e [He Hle]]]]].
  assert (H1 : expiring (id u) horizon1 d = true).
  { apply expiring_iff. repeat split; auto. exists e. split; [assumption|].
    eapply Hquiet; eassumption. }
  rewrite (filter_empty_none _ _ _ Hnil Hd) in H1. discriminate.
Qed.

(** C5, as the program has it. After a run in which every collaborator
    call succeeds, the listing of the users and the queries of the deals
    as well as the sends and the updates, a second run on the tables the
    first one left, at a time at which no further deal has come within
    three days of its expiry, sends no notification and attempts none,
    whatever fails in it; it changes no row. *)
Theorem second_sweep_sends_nothing :
  forall (plan1 plan2 : nat -> bool) (LocalTZA : Zone) (now1 now2 : Z)
         (w : World),
    calm plan1 ->
    (forall d e, In d (deals w) -> expiry_date d = Some e ->
                 e <= threeDaysFromNow LocalTZA now2 -> e <= threeDaysFromNow LocalTZA now1) ->
    let w1 := sweep plan1 LocalTZA now1 w in
    let w2 := sweep plan2 LocalTZA now2 w1 in
    deals w2 = deals w1
    /\ exists new,
         events w2 = (events w1 ++ new)%list
         /\ sent_to_any new = []
         /\ forall e, In e new -> is_mail e = false.
Proof.
  intros plan1 plan2 LocalTZA now1 now2 w Hcalm Hquiet w1 w2.
  assert (H1 : users w1 = users w
               /\ map expiry_date (deals w1) = map expiry_date (deals w)
               /\ forall u, In u (users w) -> expiringSoon u = true ->
                            due (threeDaysFromNow LocalTZA now1) u (deals w1) = []).
  { subst w1. unfold sweep.
    rewrite checkAndNotifyExpiringDeals_cases, Hcalm.
    destruct (for_of_notify_calm_clears plan1 (threeDaysFromNow LocalTZA now1)
                (users w) Hcalm
                {| users := users w; deals := deals w; events := events w;
                   tick := S (tick w) |})
      as [w' [Hrun [Hu [He [_ Hclear]]]]].
    rewrite Hrun. cbn [snd]. auto. }
  destruct H1 as [Hu1 [He1 Hclear]].
  assert (Hnone : forall u, In u (users w1) -> expiringSoon u = true ->
                            due (threeDaysFromNow LocalTZA now2) u (deals w1) = []).
  { intros u Hin Hen. rewrite Hu1 in Hin.
    apply (due_within (threeDaysFromNow LocalTZA now1)); [|now apply Hclear].
    intros d e Hd Hexp. apply (in_map expiry_date) in Hd.
    rewrite He1 in Hd. apply in_map_iff in Hd as [d0 [Heq Hd0]].
    apply (Hquiet d0 e Hd0). congruence. }
  subst w2. unfold sweep at 1 2.
  rewrite checkAndNotifyExpiringDeals_cases.
  destruct (plan2 (tick w1)).
  - cbn. split; [reflexivity|]. eexists. split; [reflexivity|].
    split; [reflexivity|]. intros e [<-|[]]. reflexivity.
  - destruct (for_of (users w1) (notify_user plan2 (threeDaysFromNow LocalTZA now2))
                {| users := users w1; deals := deals w1; events := events w1;
                   tick := S (tick w1) |}) as [c w'] eqn:Hrun.
    apply for_of_notify_nothing_due in Hrun as [Hd [He _]]; [|exact Hnone].
    cbn in Hd, He. destruct c as [[]|e]; cbn.
    + split; [exact Hd|]. exists []. rewrite app_nil_r.
      split; [exact He|]. split; [reflexivity|]. intros e [].
    + split; [exact Hd|]. exists [ConsoleError e]. rewrite He.
      split; [reflexivity|]. split; [reflexivity|].
      intros x [<-|[]]. reflexivity.
Qed.

Lemma second_sweep_sends_nothing_witness :
  let w1 := sweep Samples.never Samples.utc Samples.now0 Samples.world0 in
  let w2 := sweep Samples.never Samples.utc (Samples.now0 + 1000) w1 in
  events w1
  = [MailSent "alice@example.com" [Samples.deal_A]; Updated ["deal-a"];
     ConsoleLog "alice@example.com" 1;
     MailSent "bob@example.com" [Samples.deal_D]; Updated ["deal-d"];
     ConsoleLog "bob@example.com" 1]
  /\ deals w2 = deals w1
  /\ sent_to_any (skipn (List.length (events w1)) (events w2)) = [].
Proof.
  cbv zeta. split; [vm_compute; reflexivity|].
  destruct (second_sweep_sends_nothing Samples.never Samples.never
              Samples.utc Samples.now0 (Samples.now0 + 1000) Samples.world0
              (fun n => eq_refl))
    as [Hd [new [Hev [Hsent _]]]].
  - intros d e Hin. unfold threeDaysFromNow.
    repeat (destruct Hin as [<-|Hin]; [intros [= <-]; vm_compute; intuition discriminate|]).
    destruct Hin.
  - split; [exact Hd|]. rewrite Hev, skipn_app, skipn_all, Nat.sub_diag.
    exact Hsent.
Defined.

(** C5, as stated, fails in two ways. A second run one second after the
    first, on the rows the first one left and with every send and update
    of the first run successful, mails a deal that has come within three
    days of its expiry in that second. And after a first run whose query
    for the deals of the first user fails, a run in which no send or
    update is attempted, a second run at the same time mails everything
    that was due. *)
Lemma second_sweep_mails_what_the_first_did_not :
  let w1 := sweep Samples.never Samples.utc Samples.now0 Samples.world_X in
  let w2 := sweep Samples.never Samples.utc (Samples.now0 + 1000) w1 in
  let v1 := sweep (Samples.only 1) Samples.utc Samples.now0 Samples.world0 in
  let v2 := sweep Samples.never Samples.utc Samples.now0 v1 in
  events w1
  = [MailSent "alice@example.com" [Samples.deal_A]; Updated ["deal-a"];
     ConsoleLog "alice@example.com" 1]
  /\ map deal_id (deals w1) = map deal_id (deals Samples.world_X)
  /\ map is_notified (deals w1) = [true; false]
  /\ sent_to_any (skipn (List.length (events w1)) (events w2))
     = [("alice@example.com", [Samples.deal_X])]
  /\ events v1 = [ConsoleError "dealsError"]
  /\ deals v1 = deals Samples.world0
  /\ sent_to_any (skipn (List.length (events v1)) (events v2))
     = [("alice@example.com", [Samples.deal_A]);
        ("bob@example.com", [Samples.deal_D])].
Proof.
  cbv zeta. repeat split; vm_compute; reflexivity.
Qed.

End TwoRuns.

Section BatchFailures.

Import Notifier.

(** A throw in the turn of one user ends the loop: the users after that
    one get no turn. *)
Lemma for_of_stops_at_throw plan horizon u rest w e w1 :
  notify_user plan horizon u w = (Throw e, w1) ->
  for_of (u :: rest) (notify_user plan horizon) w = (Throw e, w1).
Proof.
  intros H. cbn [for_of]. unfold mbind. now rewrite H.
Qed.

(** C8, on the notifier. Alice and bob both have a deal that is due. When
    the mail to alice is rejected, or the query for her deals fails, the
    run ends there: bob, whose turn comes later, gets no mail in this run,
    although a run without failure sends him one; and the endpoint still
    replies with success. *)
Theorem sweep_one_failing_user_ends_the_run :
  let horizon := threeDaysFromNow Samples.utc Samples.now0 in
  due horizon Samples.bob (deals Samples.world0) = [Samples.deal_D]
  /\ sent_to "bob@example.com"
       (events (sweep Samples.never Samples.utc Samples.now0 Samples.world0))
     = [[Samples.deal_D]]
  /\ events (sweep (Samples.only 2) Samples.utc Samples.now0 Samples.world0)
     = [MailFailed "alice@example.com" [Samples.deal_A];
        ConsoleError "sendMail"]
  /\ sent_to "bob@example.com"
       (events (sweep (Samples.only 2) Samples.utc Samples.now0 Samples.world0)) = []
  /\ events (sweep (Samples.only 1) Samples.utc Samples.now0 Samples.world0)
     = [ConsoleError "dealsError"]
  /\ fst (notifications_check (Samples.only 2) Samples.utc Samples.now0 Samples.world0)
     = Normal true.
Proof.
  cbv zeta. repeat split; vm_compute; reflexivity.
Qed.

End BatchFailures.

(* ===================================================================== *)
(** * Further properties of the content extractor and the image classifier *)
(* ===================================================================== *)

Section ContentFacts.

Import Mime Images.

Variable base64_decode : string -> string.
Variable cheerio_img : string -> list ImgElem.

Lemma string_app_nil_r (s : string) : s ++ EmptyString = s.
Proof.
  induction s as [|c s IH]; simpl; [reflexivity|now rewrite IH].
Qed.

Lemma content_of_from m ps :
  forall acc,
    fold_left
      (fun content part =>
         if is_mime m part && truthy_str (data (body part))
         then content ++ base64_decode (or_empty (data (body part)))
         else content) ps acc
    = acc ++ content_of base64_decode m ps.
Proof.
  unfold content_of. induction ps as [|p ps IH]; intros acc; simpl.
  - now rewrite string_app_nil_r.
  - destruct (is_mime m p && truthy_str (data (body p))).
    + rewrite IH. rewrite (IH (base64_decode _)).
      now rewrite string_app_assoc.
    + now rewrite IH.
Qed.

Lemma content_of_cons m p ps :
  content_of base64_decode m (p :: ps)
  = (if is_mime m p && truthy_str (data (body p))
     then base64_decode (or_empty (data (body p))) else EmptyString)
    ++ content_of base64_decode m ps.
Proof.
  unfold content_of at 1. cbn [fold_left]. rewrite content_of_from.
  now destruct (is_mime m p && truthy_str (data (body p))).
Qed.

Lemma content_of_app m ps1 ps2 :
  content_of base64_decode m (ps1 ++ ps2)
  = content_of base64_decode m ps1 ++ content_of base64_decode m ps2.
Proof.
  induction ps1 as [|p ps1 IH]; [reflexivity|].
  rewrite <- app_comm_cons, !content_of_cons, IH.
  now rewrite string_app_assoc.
Qed.

(** X1. The content of one MIME type is the concatenation, in traversal
    order, of the decoded bodies of the leaves of that type whose data is
    not empty; every other leaf adds nothing. The content of a container is
    the concatenation of the contents of its children, its own body never
    being read. *)
Theorem content_of_concatenates_leaf_bodies_in_order :
  forall (m : string) (ps : list Part) (mt : option string) (b : Body)
         (children : list Part),
    content_of base64_decode m ps
    = fold_right String.append EmptyString
        (map (fun p => base64_decode (or_empty (data (body p))))
             (filter (fun p => is_mime m p && truthy_str (data (body p))) ps))
    /\ content_of base64_decode m (getAllParts (mkPart mt b (Some children)) [])
       = fold_right String.append EmptyString
           (map (fun c => content_of base64_decode m (getAllParts c []))
                children).
Proof.
  intros m ps mt b children. split.
  - induction ps as [|p ps IH]; [reflexivity|].
    rewrite content_of_cons, IH. cbn [filter].
    now destruct (is_mime m p && truthy_str (data (body p))).
  - rewrite getAllParts_emitted. cbn [app emitted].
    induction children as [|c cs IH]; [reflexivity|].
    cbn [flat_map map fold_right]. rewrite content_of_app, IH.
    now rewrite getAllParts_emitted.
Qed.

End ContentFacts.

Section ClassifierOutputFacts.

Import Mime Images.

Variable base64_decode : string -> string.
Variable cheerio_img : string -> list ImgElem.

Let extract := extractImagesFromEmail base64_decode cheerio_img.

(** Where the entries of the two lists come from. *)
Lemma extract_origins payload :
  Forall (fun c => exists e src,
                     attr_src e = Some src /\ src <> EmptyString
                     /\ isLogo e = true /\ c = imageObj src e)
         (logoImages (extract payload))
  /\ Forall (fun c => (exists e src,
                          attr_src e = Some src /\ src <> EmptyString
                          /\ isLogo e = false /\ c = imageObj src e)
                      \/ (exists p, is_inline_image p = true
                                    /\ c = attachmentObj p))
            (dealImages (extract payload)).
Proof.
  subst extract.
  destruct (extractImagesFromEmail_lists base64_decode cheerio_img payload)
    as [Hempty Hfull]. cbv zeta in Hempty, Hfull.
  destruct (content_of base64_decode "text/html" (getAllParts payload []))
    as [|a r] eqn:Hhtml.
  - rewrite (Hempty eq_refl). split; constructor.
  - destruct (Hfull ltac:(discriminate)) as [-> ->]. split.
    + apply Forall_forall. intros c Hc.
      apply in_entries in Hc as [e [src [_ [Hs [Hn [Hk ->]]]]]].
      exists e, src. auto.
    + apply Forall_forall. intros c Hc. apply in_app_or in Hc as [Hc|Hc].
      * apply in_entries in Hc as [e [src [_ [Hs [Hn [Hk ->]]]]]].
        left. exists e, src. apply negb_true_iff in Hk. auto.
      * apply in_map_iff in Hc as [p [<- Hp]]. right. exists p.
        apply filter_In in Hp as [_ Hp]. auto.
Qed.

Lemma isLogo_false_large e :
  isLogo e = false ->
  150 <= elem_width e /\ 150 <= elem_height e
  /\ includes (toLowerCase (elem_alt e)) "logo" = false.
Proof.
  unfold isLogo. intros H.
  apply orb_false_iff in H as [H Hh]. apply orb_false_iff in H as [Ha Hw].
  apply Z.ltb_ge in Hw, Hh. auto.
Qed.

(** X2. In what [extractImagesFromEmail] returns, every entry of
    [logoImages] passes the logo test; every entry of [dealImages] is an
    inline attachment or has a width and a height of at least 150 and no
    "logo" in its alt text, so its area is at least 22500. An element whose
    width or height attribute is missing or unreadable is always a logo. *)
Theorem extractImagesFromEmail_lists_respect_the_thresholds :
  forall payload : Part,
    Forall (fun c => entry_is_logo c = true) (logoImages (extract payload))
    /\ Forall (fun c => attachment_only c
                        \/ (exists w h a,
                               width c = Some w /\ height c = Some h
                               /\ alt c = Some a
                               /\ 150 <= w /\ 150 <= h /\ 22500 <= size c
                               /\ includes (toLowerCase a) "logo" = false))
              (dealImages (extract payload))
    /\ (forall e,
          parseInt_or_0 (attr_width e) = 0 \/ parseInt_or_0 (attr_height e) = 0 ->
          isLogo e = true).
Proof.
  intros payload. destruct (extract_origins payload) as [Hlogo Hdeal].
  split; [|split].
  - eapply Forall_impl; [|exact Hlogo].
    intros c [e [src [_ [_ [Hl ->]]]]]. now rewrite entry_is_logo_imageObj.
  - eapply Forall_impl; [|exact Hdeal].
    intros c [[e [src [_ [_ [Hl ->]]]]]|[p [_ ->]]].
    + right. destruct (isLogo_false_large e Hl) as [Hw [Hh Ha]].
      exists (elem_width e), (elem_height e), (elem_alt e).
      repeat split; auto.
      change (size (imageObj src e))
        with (to_double (elem_width e * elem_height e)).
      apply to_double_at_least; [|nia].
      split; [lia|]. now apply Z.lt_le_incl.
    + left. repeat split.
  - intros e H. unfold isLogo, elem_width, elem_height.
    destruct H as [-> | ->]; cbn; now rewrite ?orb_true_r.
Qed.

Lemma startsWith_resolved src :
  startsWith (if startsWith src "http" then src else "https:" ++ src) "http"
  = true.
Proof.
  destruct (startsWith src "http") eqn:H; [exact H|].
  unfold startsWith. cbn. reflexivity.
Qed.

(** X3. Every entry made from an image element carries a URL that begins
    with "http": a source that does not is prefixed with "https:". So every
    URL of [logoImages] begins with "http", and an entry of [dealImages]
    has such a URL or, being an inline attachment, none. *)
Theorem extractImagesFromEmail_urls_begin_with_http :
  forall payload : Part,
    Forall (fun c => exists u, url c = Some u /\ startsWith u "http" = true)
           (logoImages (extract payload))
    /\ Forall (fun c => url c = None
                        \/ exists u, url c = Some u /\ startsWith u "http" = true)
              (dealImages (extract payload)).
Proof.
  intros payload. destruct (extract_origins payload) as [Hlogo Hdeal]. split.
  - eapply Forall_impl; [|exact Hlogo].
    intros c [e [src [_ [_ [_ ->]]]]]. eexists. split; [reflexivity|].
    apply startsWith_resolved.
  - eapply Forall_impl; [|exact Hdeal].
    intros c [[e [src [_ [_ [_ ->]]]]]|[p [_ ->]]].
    + right. eexists. split; [reflexivity|]. apply startsWith_resolved.
    + now left.
Qed.

(** X4. When the HTML of a message has at least one image that is not a
    logo, [selectBestDealImage] returns a URL that begins with "http": an
    inline attachment, whose area counts as 0, never wins over an image of
    the HTML, so the result is neither [null] nor [undefined]. *)
Theorem selectBestDealImage_prefers_html_image_to_attachment :
  forall payload : Part,
    (exists c, In c (dealImages (extract payload)) /\ url c <> None) ->
    exists u,
      selectBestDealImage (extract payload) = Url u
      /\ startsWith u "http" = true.
Proof.
  intros payload [c [Hc Hurl]].
  destruct (extract_origins payload) as [_ Hdeal].
  rewrite Forall_forall in Hdeal.
  assert (Hne : dealImages (extract payload) <> []).
  { intros Hnil. rewrite Hnil in Hc. contradiction. }
  destruct (best_candidate_some _ Hne) as [b Hb].
  destruct (best_candidate_largest _ _ Hb) as [Hin Hmax].
  assert (Hbig : 22500 <= size c).
  { destruct (Hdeal c Hc) as [[e [src [_ [_ [Hl ->]]]]]|[p [_ ->]]].
    - destruct (isLogo_false_large e Hl) as [Hw [Hh _]].
      change (size (imageObj src e))
        with (to_double (elem_width e * elem_height e)).
      apply to_double_at_least; [|nia].
      split; [lia|]. now apply Z.lt_le_incl.
    - now contradiction Hurl. }
  specialize (Hmax c Hc).
  assert (Hsel : selectBestDealImage (extract payload) = of_property (url b)).
  { unfold selectBestDealImage. unfold best_candidate in Hb.
    destruct (dealImages (extract payload)) as [|x l]; [contradiction|].
    destruct (Array_sort by_size_desc (x :: l)); [discriminate|].
    now injection Hb as ->. }
  rewrite Hsel.
  destruct (Hdeal b Hin) as [[e [src [_ [_ [_ ->]]]]]|[p [_ ->]]].
  - eexists. split; [reflexivity|]. apply startsWith_resolved.
  - change (size (attachmentObj p)) with 0 in Hmax. lia.
Qed.

(** What [getDefaultLogoUrl] gives for a string. *)
Lemma getDefaultLogoUrl_cases name :
  (forall u, lookup name logos = Some u -> getDefaultLogoUrl (Some name) = Url u)
  /\ (lookup name logos = None -> ~ In name Object_prototype_keys ->
      getDefaultLogoUrl (Some name) = Url placeholder)
  /\ (In name Object_prototype_keys -> getDefaultLogoUrl (Some name) = Inherited name).
Proof.
  unfold getDefaultLogoUrl. split; [|split].
  - now intros u ->.
  - intros -> Hnot.
    destruct (existsb (String.eqb name) Object_prototype_keys) eqn:He;
      [|reflexivity].
    apply existsb_exists in He as [k [Hk He]].
    apply String.eqb_eq in He. subst k. contradiction.
  - intros Hin.
    assert (He : existsb (String.eqb name) Object_prototype_keys = true).
    { apply existsb_exists. exists name. split; [exact Hin|].
      apply String.eqb_refl. }
    rewrite He.
    assert (Hl : lookup name logos = None).
    { repeat (destruct Hin as [<-|Hin]; [reflexivity|]). destruct Hin. }
    now rewrite Hl.
Qed.

Example getDefaultLogoUrl_readings :
  map getDefaultLogoUrl
    [Some "KFC"; Some "Burger King"; Some "constructor"; Some "__proto__"; None]
  = [Url "https://upload.wikimedia.org/wikipedia/en/thumb/b/bf/KFC_logo.svg/200px-KFC_logo.svg.png";
     Url placeholder; Inherited "constructor"; Inherited "__proto__";
     Url placeholder].
Proof. reflexivity. Qed.

Lemma lookup_in k t v : lookup k t = Some v -> In v (map snd t).
Proof.
  induction t as [|[k' v'] t IH]; cbn; [discriminate|].
  destruct (String.eqb k k'); [intros [= ->]; now left|].
  intros H. right. now apply IH.
Qed.

(** X5. A message without HTML content yields no image at all, inline
    image attachments included: they are collected only after the HTML has
    been read. [selectBestDealImage] is then [null], and
    [selectBestLogoImage] is what [getDefaultLogoUrl] gives for the name:
    the URL of the table for one of its eight names, the placeholder for a
    name that no object has as a property, and for a name that every
    object inherits, such as "constructor", no URL but the inherited
    value. *)
Theorem extractImagesFromEmail_without_html_drops_attachments :
  forall (payload : Part) (restaurantName : option string),
    content_of base64_decode "text/html" (getAllParts payload []) = EmptyString ->
    extract payload = {| dealImages := []; logoImages := [] |}
    /\ selectBestDealImage (extract payload) = Null
    /\ selectBestLogoImage (extract payload) restaurantName
       = getDefaultLogoUrl restaurantName
    /\ (restaurantName = None ->
        selectBestLogoImage (extract payload) restaurantName = Url placeholder)
    /\ (forall name,
          restaurantName = Some name ->
          (forall u, lookup name logos = Some u ->
                     selectBestLogoImage (extract payload) restaurantName = Url u)
          /\ (lookup name logos = None -> ~ In name Object_prototype_keys ->
              selectBestLogoImage (extract payload) restaurantName
              = Url placeholder)
          /\ (In name Object_prototype_keys ->
              selectBestLogoImage (extract payload) restaurantName
              = Inherited name)).
Proof.
  intros payload name Hhtml.
  assert (H : extract payload = {| dealImages := []; logoImages := [] |}).
  { subst extract. unfold extractImagesFromEmail. now rewrite Hhtml. }
  rewrite H. split; [reflexivity|]. split; [reflexivity|].
  split; [reflexivity|]. split; [now intros ->|].
  intros n ->. apply getDefaultLogoUrl_cases.
Qed.

Lemma entries_app keep l1 l2 :
  entries keep (l1 ++ l2) = (entries keep l1 ++ entries keep l2)%list.
Proof. unfold entries. apply flat_map_app. Qed.

(** X6. When the HTML is not empty, [selectBestLogoImage] returns the
    resolved source of the first image element, in document order, that has
    a source and passes the logo test, whatever the restaurant name; when
    no element does, it returns what [getDefaultLogoUrl] gives for the
    restaurant, a URL unless the name is one that every object inherits. *)
Theorem selectBestLogoImage_first_logo_element_of_the_document :
  forall (payload : Part) (restaurantName : option string),
    let html := content_of base64_decode "text/html" (getAllParts payload []) in
    html <> EmptyString ->
    (forall pre e post src,
        cheerio_img html = (pre ++ e :: post)%list ->
        entries isLogo pre = [] ->
        attr_src e = Some src -> src <> EmptyString -> isLogo e = true ->
        selectBestLogoImage (extract payload) restaurantName
        = Url (if startsWith src "http" then src else "https:" ++ src))
    /\ (entries isLogo (cheerio_img html) = [] ->
        selectBestLogoImage (extract payload) restaurantName
        = getDefaultLogoUrl restaurantName
        /\ ((forall name, restaurantName = Some name ->
                          ~ In name Object_prototype_keys) ->
            exists u,
              selectBestLogoImage (extract payload) restaurantName = Url u
              /\ (u = placeholder \/ In u (map snd logos)))).
Proof.
  intros payload name html Hne.
  destruct (extractImagesFromEmail_lists base64_decode cheerio_img payload)
    as [_ Hfull]. destruct (Hfull Hne) as [Hlogo _]. fold html in Hlogo.
  fold extract in Hlogo. unfold selectBestLogoImage. rewrite Hlogo. split.
  - intros pre e post src Helems Hpre Hsrc Hsrcne Hl.
    rewrite Helems, entries_app, Hpre. cbn [app]. unfold entries.
    cbn [flat_map]. rewrite Hsrc, Hl.
    destruct src as [|a r]; [congruence|]. reflexivity.
  - intros ->. split; [reflexivity|]. intros Hown.
    destruct name as [n|]; [|exists placeholder; split; [reflexivity|now left]].
    destruct (getDefaultLogoUrl_cases n) as [Htable [Hnone _]].
    destruct (lookup n logos) as [u|] eqn:Hl.
    + exists u. split; [now apply Htable|]. right.
      now apply (lookup_in n logos u).
    + exists placeholder. split; [|now left].
      apply Hnone; [reflexivity|]. now apply Hown.
Qed.

End ClassifierOutputFacts.

Lemma selectBestDealImage_prefers_html_image_to_attachment_witness :
  selectBestDealImage
    (extractImagesFromEmail Samples.keep_body
       (Samples.document [Samples.img_logo; Samples.img_hero])
       (mkPart (Some "multipart/related") Samples.no_body
          (Some [Samples.image_leaf "att-0"; Samples.html_message;
                 Samples.image_leaf "att-1"])))
  = Url "https://cdn.example.com/hero.jpg".
Proof.
  destruct (selectBestDealImage_prefers_html_image_to_attachment
              Samples.keep_body
              (Samples.document [Samples.img_logo; Samples.img_hero])
              (mkPart (Some "multipart/related") Samples.no_body
                 (Some [Samples.image_leaf "att-0"; Samples.html_message;
                        Samples.image_leaf "att-1"])))
    as [u [Hu _]].
  - eexists. split; [left; reflexivity|discriminate].
  - rewrite Hu. vm_compute in Hu. exact (eq_sym Hu).
Defined.

Lemma extractImagesFromEmail_without_html_drops_attachments_witness :
  let message :=
    mkPart (Some "multipart/mixed") Samples.no_body
      (Some [Samples.text_leaf "Two for one"; Samples.image_leaf "att-1"]) in
  let images :=
    extractImagesFromEmail Samples.keep_body
      (Samples.document [Samples.img_hero]) message in
  filter is_inline_image (getAllParts message []) = [Samples.image_leaf "att-1"]
  /\ selectBestDealImage images = Null
  /\ selectBestLogoImage images (Some "constructor") = Inherited "constructor".
Proof.
  cbv zeta. split; [reflexivity|].
  destruct (extractImagesFromEmail_without_html_drops_attachments
              Samples.keep_body (Samples.document [Samples.img_hero])
              (mkPart (Some "multipart/mixed") Samples.no_body
                 (Some [Samples.text_leaf "Two for one";
                        Samples.image_leaf "att-1"]))
              (Some "constructor") eq_refl)
    as [_ [Hdeal [_ [_ Hname]]]].
  split; [exact Hdeal|].
  apply (Hname "constructor" eq_refl). now left.
Defined.

Lemma selectBestLogoImage_first_logo_element_of_the_document_witness :
  selectBestLogoImage
    (extractImagesFromEmail Samples.keep_body
       (Samples.document [Samples.img_no_src; Samples.img_hero;
                          Samples.img_small; Samples.img_logo])
       Samples.html_message)
    (Some "KFC")
  = Url "https://cdn.example.com/pixel.gif".
Proof.
  apply (proj1 (selectBestLogoImage_first_logo_element_of_the_document
                  Samples.keep_body
                  (Samples.document [Samples.img_no_src; Samples.img_hero;
                                     Samples.img_small; Samples.img_logo])
                  Samples.html_message (Some "KFC") ltac:(discriminate))
           [Samples.img_no_src; Samples.img_hero] Samples.img_small
           [Samples.img_logo] "https://cdn.example.com/pixel.gif"
           eq_refl eq_refl eq_refl ltac:(discriminate) eq_refl).
Defined.

(* ===================================================================== *)
(** * Further properties of the deal extractor *)
(* ===================================================================== *)

Section MatchFacts.

Import Extract.

Lemma from_first_open_lacks a r :
  lacks "{" a = true ->
  from_first_open (a ++ String "{" r) = Some (String "{" r).
Proof.
  induction a as [|c a IH]; intros H; simpl in *; [reflexivity|].
  apply andb_true_iff in H as [Hc Ha]. apply negb_true_iff in Hc.
  rewrite Hc. now apply IH.
Qed.

Lemma upto_last_close_lacks_none c :
  lacks "}" c = true -> upto_last_close c = None.
Proof.
  induction c as [|x c IH]; intros H; simpl in *; [reflexivity|].
  apply andb_true_iff in H as [Hx Hc]. apply negb_true_iff in Hx.
  now rewrite IH, Hx.
Qed.

Lemma upto_last_close_lacks a c :
  lacks "}" c = true ->
  upto_last_close (a ++ String "}" c) = Some (a ++ "}").
Proof.
  intros Hc. induction a as [|x a IH]; simpl.
  - now rewrite upto_last_close_lacks_none.
  - now rewrite IH.
Qed.

(** X7. The span [parseEmailWithClaude] hands to [JSON.parse] runs from
    the first opening brace of the response to its last closing brace,
    whatever stands between them: the match is [m] exactly when the
    response is [a ++ m ++ c] with [m] in braces, no opening brace in [a]
    and no closing brace in [c]. A response with two objects is therefore
    matched from the start of the first to the end of the second. *)
Theorem jsonMatch_first_open_to_last_close :
  forall text m : string,
    jsonMatch text = Some m <->
    exists a b c,
      text = a ++ m ++ c /\ m = "{" ++ b ++ "}"
      /\ lacks "{" a = true /\ lacks "}" c = true.
Proof.
  intros text m. split; [apply jsonMatch_leftmost_greedy|].
  intros [a [b [c [-> [-> [Ha Hc]]]]]]. unfold jsonMatch.
  change (("{" ++ b ++ "}") ++ c) with (String "{" ((b ++ "}") ++ c)).
  rewrite from_first_open_lacks by assumption.
  rewrite string_app_assoc.
  change (String "{" (b ++ "}" ++ c)) with ((String "{" b) ++ String "}" c).
  now rewrite upto_last_close_lacks.
Qed.

End MatchFacts.

(* ===================================================================== *)
(** * Further properties of the scan endpoint *)
(* ===================================================================== *)

Section ScanReplyFacts.

Import Scan.

Variable Row : Type.
Variable base64_decode : string -> string.
Variable cheerio_img : string -> list ImgElem.
Variable anthropic_complete : string -> string -> string -> Completion string.
Variable JSON_parse : string -> option Json.
Variable getUserByEmail : string -> Completion (option UserRow).
Variable fetchPromotionalEmails : Json -> Completion (list Email).
Variable deals_insert : DealInsert -> Completion Row.

Let scan := scan_deals Row base64_decode cheerio_img anthropic_complete
              JSON_parse getUserByEmail fetchPromotionalEmails deals_insert.
Let loop := scan_loop Row base64_decode cheerio_img anthropic_complete
              JSON_parse deals_insert.
Let row := row_of base64_decode cheerio_img anthropic_complete JSON_parse.
Let rows := rows_of base64_decode cheerio_img anthropic_complete JSON_parse.
Let stored := stored_of Row base64_decode cheerio_img anthropic_complete
                JSON_parse deals_insert.




(** X11. The scan does not look at what was stored before: the objects it
    hands to the storage insert do not depend on the earlier inserts. With
    the collaborators answering as before, a second scan of the same inbox
    hands every object to the storage a second time and gives the same
    reply. *)
Theorem scan_deals_again_inserts_again :
  forall (userEmail : string) (calls : list DealInsert),
    snd (scan userEmail calls) = (calls ++ snd (scan userEmail []))%list
    /\ fst (scan userEmail calls) = fst (scan userEmail [])
    /\ snd (scan userEmail (snd (scan userEmail [])))
       = (snd (scan userEmail []) ++ snd (scan userEmail []))%list.
Proof.
  intros userEmail calls.
  assert (H : forall cs,
             snd (scan userEmail cs) = (cs ++ snd (scan userEmail []))%list
             /\ fst (scan userEmail cs) = fst (scan userEmail [])).
  { intros cs. subst scan. cbv zeta. rewrite !scan_deals_reply.
    destruct (getUserByEmail userEmail) as [[user|]|e];
      cbn; rewrite ?app_nil_r; auto.
    destruct (gmail_tokens user) as [tokens|]; cbn; rewrite ?app_nil_r; auto.
    destruct (truthy tokens); cbn; rewrite ?app_nil_r; auto.
    destruct (fetchPromotionalEmails tokens) as [emails|e];
      cbn; rewrite ?app_nil_r; auto. }
  split; [apply H|]. split; [apply H|]. apply H.
Qed.

End ScanReplyFacts.



(* ===================================================================== *)
(** * Further properties of the expiry notifier *)
(* ===================================================================== *)

Section SweepFacts.

Import Notifier Views.

Variable plan : nat -> bool.
Variable LocalTZA : Zone.

Lemma mail_to_enabled_user_more horizon v rest e :
  mail_to_enabled_user horizon rest e ->
  mail_to_enabled_user horizon (v :: rest) e.
Proof.
  destruct e; cbn; auto; intros [u [Hu H]]; exists u; split; auto; now right.
Qed.

Lemma due_all_expiring horizon u ds :
  Forall (fun d => expiring (id u) horizon d = true) (due horizon u ds).
Proof.
  apply Forall_forall. intros d Hd. unfold due in Hd.
  now apply filter_In in Hd.
Qed.

(** The mails of the loop, whatever fails. *)
Lemma for_of_notify_mails horizon us :
  forall w c w',
    for_of us (notify_user plan horizon) w = (c, w') ->
    exists new,
      events w' = (events w ++ new)%list
      /\ Forall (mail_to_enabled_user horizon us) new.
Proof.
  induction us as [|v rest IH]; intros w c w' Hrun.
  - cbn in Hrun. injection Hrun as <- <-. exists []. now rewrite app_nil_r.
  - cbn [for_of] in Hrun. unfold mbind in Hrun.
    rewrite notify_user_cases in Hrun.
    assert (Hgo : forall w1 es,
              events w1 = (events w ++ es)%list ->
              Forall (mail_to_enabled_user horizon (v :: rest)) es ->
              for_of rest (notify_user plan horizon) w1 = (c, w') ->
              exists new,
                events w' = (events w ++ new)%list
                /\ Forall (mail_to_enabled_user horizon (v :: rest)) new).
    { intros w1 es Hes Hok Hrest.
      destruct (IH w1 c w' Hrest) as [new [Hnew Hall]].
      exists (es ++ new)%list. split; [now rewrite Hnew, Hes, app_assoc|].
      apply Forall_app. split; [exact Hok|].
      eapply Forall_impl; [|exact Hall].
      intros e. apply mail_to_enabled_user_more. }
    destruct (expiringSoon v) eqn:Hen; cbn [negb] in Hrun.
    2:{ apply (Hgo w []); auto. now rewrite app_nil_r. }
    destruct (plan (tick w)).
    { injection Hrun as <- <-. exists []. cbn. auto. }
    destruct (due horizon v (deals w)) as [|d ds'] eqn:Hdue.
    { eapply (Hgo _ []); [| |exact Hrun]; [reflexivity|constructor]. }
    cbv zeta in Hrun.
    assert (Hmail : exists u, In u (v :: rest) /\ email u = email v
                              /\ expiringSoon u = true /\ d :: ds' <> []
                              /\ Forall (fun x => expiring (id u) horizon x = true)
                                        (d :: ds')).
    { exists v. split; [now left|]. repeat split; auto; [discriminate|].
      rewrite <- Hdue. apply due_all_expiring. }
    destruct (plan (S (tick w))).
    { injection Hrun as <- <-. eexists. split; [reflexivity|].
      constructor; [exact Hmail|constructor]. }
    destruct (plan (S (S (tick w)))).
    + eapply Hgo; [| |exact Hrun]; [reflexivity|].
      repeat constructor. exact Hmail.
    + eapply Hgo; [| |exact Hrun]; [reflexivity|].
      repeat constructor. exact Hmail.
Qed.

(** X12. Whatever fails in a run, every mail it sends or attempts goes to
    a user whose [expiringSoon] preference is on and lists only deals of
    that user that are active, not notified and expire by the horizon,
    at least one of them. With unique addresses, a user whose preference
    is off gets no mail, whatever the state of the user's deals. *)
Theorem sweep_mails_only_users_with_the_preference_on :
  forall (now : Z) (w : World) (new : list Event),
    events (sweep plan LocalTZA now w) = (events w ++ new)%list ->
    Forall (mail_to_enabled_user (threeDaysFromNow LocalTZA now) (users w)) new
    /\ (forall u ds,
          NoDup (map email (users w)) -> In u (users w) ->
          expiringSoon u = false ->
          ~ In (MailSent (email u) ds) new
          /\ ~ In (MailFailed (email u) ds) new).
Proof.
  intros now w new Hev.
  assert (Hall : Forall (mail_to_enabled_user (threeDaysFromNow LocalTZA now) (users w))
                   new).
  { unfold sweep in Hev. rewrite checkAndNotifyExpiringDeals_cases in Hev.
    destruct (plan (tick w)).
    - cbn in Hev. apply app_inv_head in Hev. subst new.
      repeat constructor.
    - destruct (for_of (users w) (notify_user plan (threeDaysFromNow LocalTZA now))
                  {| users := users w; deals := deals w; events := events w;
                     tick := S (tick w) |}) as [c w'] eqn:Hrun.
      destruct (for_of_notify_mails _ _ _ _ _ Hrun) as [new' [Hnew Hok]].
      cbn [events] in Hnew.
      destruct c as [[]|e]; cbn in Hev; rewrite Hnew in Hev.
      + apply app_inv_head in Hev. now subst new'.
      + rewrite <- app_assoc in Hev. apply app_inv_head in Hev. subst new.
        apply Forall_app. split; [exact Hok|]. repeat constructor. }
  split; [exact Hall|].
  intros u ds Hnd Hin Hoff. rewrite Forall_forall in Hall.
  split; intros Hmail; apply Hall in Hmail;
    destruct Hmail as [u' [Hin' [Heq [Hon _]]]];
    assert (u' = u) by (eapply NoDup_map_inj; eauto); subst u';
    congruence.
Qed.

Lemma kept_or_marked_refl ds : Forall2 kept_or_marked ds ds.
Proof.
  induction ds; constructor; auto. now left.
Qed.

Lemma kept_or_marked_update dealIds ds :
  Forall2 kept_or_marked ds (mark_notified dealIds ds).
Proof.
  unfold mark_notified. induction ds as [|d ds IH]; cbn; constructor; auto.
  destruct (id_in dealIds d); [now right|now left].
Qed.

Lemma kept_or_marked_trans ds1 :
  forall ds2 ds3,
    Forall2 kept_or_marked ds1 ds2 -> Forall2 kept_or_marked ds2 ds3 ->
    Forall2 kept_or_marked ds1 ds3.
Proof.
  induction ds1 as [|d ds1 IH]; intros ds2 ds3 H12 H23.
  - inversion H12; subst. inversion H23; subst. constructor.
  - inversion H12 as [|? d2 ? ds2' Hd Hrest]; subst.
    inversion H23 as [|? d3 ? ds3' Hd' Hrest']; subst.
    constructor; [|eapply IH; eassumption].
    destruct Hd as [->| ->], Hd' as [->| ->]; [now left|now right|now right|].
    now right.
Qed.

Lemma for_of_notify_rows horizon us :
  forall w c w',
    for_of us (notify_user plan horizon) w = (c, w') ->
    users w' = users w /\ Forall2 kept_or_marked (deals w) (deals w').
Proof.
  induction us as [|v rest IH]; intros w c w' Hrun.
  - cbn in Hrun. injection Hrun as <- <-. split; [reflexivity|].
    apply kept_or_marked_refl.
  - cbn [for_of] in Hrun. unfold mbind in Hrun.
    rewrite notify_user_cases in Hrun.
    assert (Hgo : forall w1,
              users w1 = users w ->
              Forall2 kept_or_marked (deals w) (deals w1) ->
              for_of rest (notify_user plan horizon) w1 = (c, w') ->
              users w' = users w /\ Forall2 kept_or_marked (deals w) (deals w')).
    { intros w1 Hu Hd Hrest. destruct (IH w1 c w' Hrest) as [Hu' Hd'].
      split; [congruence|]. eapply kept_or_marked_trans; eassumption. }
    destruct (negb (expiringSoon v)).
    { apply (Hgo w); auto. apply kept_or_marked_refl. }
    destruct (plan (tick w)).
    { injection Hrun as <- <-. cbn. split; [reflexivity|].
      apply kept_or_marked_refl. }
    destruct (due horizon v (deals w)) as [|d ds'].
    { eapply Hgo; [| |exact Hrun]; [reflexivity|]. apply kept_or_marked_refl. }
    cbv zeta in Hrun. destruct (plan (S (tick w))).
    { injection Hrun as <- <-. cbn. split; [reflexivity|].
      apply kept_or_marked_refl. }
    destruct (plan (S (S (tick w)))).
    + eapply Hgo; [| |exact Hrun]; [reflexivity|]. apply kept_or_marked_refl.
    + eapply Hgo; [| |exact Hrun]; [reflexivity|].
      apply kept_or_marked_update.
Qed.

(** X13. Whatever fails, a run leaves the [users] table as it was and
    changes the [deals] table only by setting [is_notified] on some rows:
    no row is added, removed or reordered, no id, owner, expiry date or
    [is_active] changes, no [is_notified] goes back to false, and the keys
    of the schema stay unique. *)
Theorem sweep_only_sets_is_notified :
  forall (now : Z) (w : World),
    let w' := sweep plan LocalTZA now w in
    users w' = users w
    /\ Forall2 kept_or_marked (deals w) (deals w')
    /\ map deal_id (deals w') = map deal_id (deals w)
    /\ map user_id (deals w') = map user_id (deals w)
    /\ map expiry_date (deals w') = map expiry_date (deals w)
    /\ map is_active (deals w') = map is_active (deals w)
    /\ Forall2 (fun d d' => is_notified d = true -> is_notified d' = true)
               (deals w) (deals w')
    /\ (keys_unique w -> keys_unique w').
Proof.
  intros now w w'.
  assert (H : users w' = users w /\ Forall2 kept_or_marked (deals w) (deals w')).
  { subst w'. unfold sweep. rewrite checkAndNotifyExpiringDeals_cases.
    destruct (plan (tick w)).
    - cbn. split; [reflexivity|apply kept_or_marked_refl].
    - destruct (for_of (users w) (notify_user plan (threeDaysFromNow LocalTZA now))
                  {| users := users w; deals := deals w; events := events w;
                     tick := S (tick w) |}) as [c w1] eqn:Hrun.
      apply for_of_notify_rows in Hrun. cbn in Hrun.
      destruct c as [[]|e]; cbn; exact Hrun. }
  destruct H as [Hu Hd].
  assert (Hmap : forall (B : Type) (f : Deal -> B),
             (forall d, f (set_notified d) = f d) ->
             map f (deals w') = map f (deals w)).
  { intros B f Hf. induction Hd as [|d d' ds ds' Hdd _ IH]; [reflexivity|].
    cbn. rewrite IH. f_equal. destruct Hdd as [->| ->]; auto. }
  assert (Hids : map deal_id (deals w') = map deal_id (deals w))
    by now apply Hmap.
  repeat split; auto.
  - clear Hmap Hids. induction Hd as [|d d' ds ds' Hdd _ IH]; constructor; auto.
    destruct Hdd as [->| ->]; auto.
  - destruct H as [H _]. now rewrite Hu.
  - destruct H as [_ [H _]]. now rewrite Hu.
  - destruct H as [_ [_ H]]. now rewrite Hids.
Qed.

(** X14. [checkAndNotifyExpiringDeals] never throws: whatever fails inside
    it is caught and logged. The manual trigger therefore always replies
    with success, also when the run was cut short. *)
Theorem notifications_check_always_replies_success :
  forall (now : Z) (w : World),
    fst (checkAndNotifyExpiringDeals plan LocalTZA now w) = Normal tt
    /\ fst (notifications_check plan LocalTZA now w) = Normal true.
Proof.
  intros now w.
  assert (H : fst (checkAndNotifyExpiringDeals plan LocalTZA now w) = Normal tt).
  { rewrite checkAndNotifyExpiringDeals_cases.
    destruct (plan (tick w)); [reflexivity|].
    destruct (for_of (users w) (notify_user plan (threeDaysFromNow LocalTZA now)) _)
      as [[[]|e] w1]; reflexivity. }
  split; [exact H|].
  unfold notifications_check, try_catch_M, mbind.
  destruct (checkAndNotifyExpiringDeals plan LocalTZA now w) as [[[]|e] w1];
    [reflexivity|discriminate].
Qed.

End SweepFacts.

Lemma sweep_mails_only_users_with_the_preference_on_witness :
  Notifier.due (Notifier.threeDaysFromNow Samples.utc Samples.now0) Samples.carol
    (Notifier.deals Samples.world0) = [Samples.deal_E]
  /\ ~ In (Notifier.MailSent "carol@example.com" [Samples.deal_E])
         (Notifier.events (Notifier.sweep Samples.never Samples.utc Samples.now0
                             Samples.world0)).
Proof.
  split; [reflexivity|].
  apply (proj2 (sweep_mails_only_users_with_the_preference_on Samples.never
                  Samples.utc Samples.now0 Samples.world0
                  (Notifier.events (Notifier.sweep Samples.never Samples.utc Samples.now0
                                      Samples.world0))
                  eq_refl)
           Samples.carol [Samples.deal_E]).
  - repeat constructor; simpl; intuition discriminate.
  - right. now left.
  - reflexivity.
Defined.

(* ===================================================================== *)
(** * Properties of the storage functions and their endpoints *)
(* ===================================================================== *)

Section StoreFacts.

Import Store.

Variable plan : nat -> option string.
Variable uuid : nat -> string.
Variable numeric_in : string -> option Q.
Variable order_by_expiry : list Notifier.Deal -> list Notifier.Deal.
Variable LocalTZA : Zone.

(** What [getUserByEmail] returns, by the fate of its one call. *)
Lemma getUserByEmail_cases e db :
  getUserByEmail plan e db
  = let db1 := {| users := users db; deals := deals db;
                  preferences := preferences db; issued := issued db;
                  tick := S (tick db) |} in
    match plan (tick db) with
    | Some c => if String.eqb c "PGRST116" then (Normal None, db1)
                else (Throw c, db1)
    | None =>
        match filter (has_email e) (users db) with
        | [u] => (Normal (Some u), db1)
        | _ => (Normal None, db1)
        end
    end.
Proof.
  unfold getUserByEmail, users_select, mbind, call, ret, throw. cbn.
  destruct (plan (tick db)) as [c|]; cbn.
  - now destruct (String.eqb c "PGRST116").
  - destruct (filter (has_email e) (users db)) as [|u [|u' l]]; reflexivity.
Qed.

(** X15. For an address no row of [users] has, the three endpoints that
    start with the lookup of the user reply 404, not 500, when the lookup
    call succeeds or fails with the code PGRST116; they make no other
    storage call and leave the tables as they were. *)
Theorem endpoints_reply_404_for_an_unknown_address :
  forall (now : Z) (userEmail restaurant : string) (isSelected : bool)
         (filters : Filters) (db : Db),
    filter (has_email userEmail) (users db) = [] ->
    plan (tick db) = None \/ plan (tick db) = Some "PGRST116" ->
    let bumped := {| users := users db; deals := deals db;
                     preferences := preferences db; issued := issued db;
                     tick := S (tick db) |} in
    get_deals plan numeric_in order_by_expiry LocalTZA now userEmail filters db
    = (Normal Status404, bumped)
    /\ post_preference plan uuid userEmail restaurant isSelected db
       = (Normal Status404, bumped)
    /\ get_preferences plan userEmail db = (Normal Status404, bumped).
Proof.
  intros now userEmail restaurant isSelected filters db Hnone Hplan bumped.
  assert (H : getUserByEmail plan userEmail db = (Normal None, bumped)).
  { rewrite getUserByEmail_cases. cbv zeta. rewrite Hnone.
    destruct Hplan as [-> | ->]; reflexivity. }
  unfold get_deals, post_preference, get_preferences, try_catch_M, mbind.
  rewrite H. repeat split.
Qed.

Lemma NoDup_snoc {A} (l : list A) x :
  NoDup l -> ~ In x l -> NoDup (l ++ [x]).
Proof.
  intros Hnd Hx. eapply Permutation_NoDup; [apply Permutation_cons_append|].
  now constructor.
Qed.

Lemma has_email_filter_unique e us :
  NoDup (map email us) ->
  filter (has_email e) us = [] \/ exists u, filter (has_email e) us = [u].
Proof.
  induction us as [|v us IH]; intros Hnd; [now left|].
  cbn [map] in Hnd. inversion Hnd as [|? ? Hnotin Hnd']; subst.
  cbn [filter]. destruct (has_email e v) eqn:Hv.
  - right. exists v. f_equal. apply filter_none. intros x Hx.
    unfold has_email in *. apply String.eqb_eq in Hv.
    apply String.eqb_neq. intros Heq. apply Hnotin.
    rewrite Hv, <- Heq. now apply in_map.
  - now apply IH.
Qed.

Lemma has_email_exists e us :
  existsb (has_email e) us = false <-> filter (has_email e) us = [].
Proof.
  induction us as [|v us IH]; [now split|]. cbn.
  destruct (has_email e v); cbn; [split; discriminate|exact IH].
Qed.

Lemma with_tokens_filter e e' tokens us :
  filter (has_email e')
         (map (fun u => if has_email e u then with_tokens tokens u else u) us)
  = map (fun u => if has_email e u then with_tokens tokens u else u)
        (filter (has_email e') us).
Proof.
  induction us as [|v us IH]; [reflexivity|]. cbn [map filter].
  assert (H : has_email e' (if has_email e v then with_tokens tokens v else v)
              = has_email e' v) by now destruct (has_email e v).
  rewrite H. destruct (has_email e' v); cbn [map]; now rewrite IH.
Qed.

Lemma with_tokens_emails e tokens us :
  map email (map (fun u => if has_email e u then with_tokens tokens u else u) us)
  = map email us.
Proof.
  rewrite map_map. apply map_ext. intros u. now destruct (has_email e u).
Qed.

(** X16. On a [users] table with unique addresses, when the two storage
    calls succeed, [getUserByEmail] after [storeUserTokens] returns the
    row [storeUserTokens] returned: it has the address and the tokens; for
    a user who was there it keeps the id and the notification preferences,
    for a new user it has a fresh id and the default preferences, with
    [expiringSoon] on. The rows of the other addresses, the other tables
    and the uniqueness of the addresses are as before. *)
Theorem storeUserTokens_then_getUserByEmail :
  forall (e : string) (tokens : Json) (db : Db),
    NoDup (map email (users db)) ->
    plan (tick db) = None -> plan (S (tick db)) = None ->
    exists row db1 db2,
      storeUserTokens plan uuid e tokens db = (Normal (Some row), db1)
      /\ getUserByEmail plan e db1 = (Normal (Some row), db2)
      /\ email row = e /\ gmail_tokens row = as_column tokens
      /\ (forall u, In u (users db) -> email u = e ->
            id row = id u
            /\ notification_preferences row = notification_preferences u)
      /\ (filter (has_email e) (users db) = [] ->
          id row = uuid (issued db)
          /\ notification_preferences row = Some default_preferences)
      /\ (forall e', e' <> e ->
            filter (has_email e') (users db1) = filter (has_email e') (users db))
      /\ NoDup (map email (users db1))
      /\ deals db1 = deals db /\ preferences db1 = preferences db.
Proof.
  intros e tokens db Hnd Hp0 Hp1.
  unfold storeUserTokens, users_upsert, mbind, call. rewrite Hp0.
  cbn [tick users deals preferences issued].
  destruct (has_email_filter_unique e (users db) Hnd) as [Hnone|[u Hone]].
  - rewrite (proj2 (has_email_exists e (users db)) Hnone).
    set (new := {| id := uuid (issued db); email := e;
                   gmail_tokens := as_column tokens;
                   notification_preferences := Some default_preferences |}).
    assert (Hf : filter (has_email e) (users db ++ [new]) = [new]).
    { rewrite filter_app, Hnone. cbn. unfold has_email. cbn.
      now rewrite String.eqb_refl. }
    rewrite Hf. cbn [single error data]. unfold ret.
    eexists new, _, _. split; [reflexivity|]. split.
    { rewrite getUserByEmail_cases. cbn [tick users]. rewrite Hp1, Hf.
      reflexivity. }
    cbn [users deals preferences email gmail_tokens id notification_preferences].
    repeat split; auto.
    + exfalso. assert (Hin : In u (filter (has_email e) (users db))).
      { apply filter_In. split; [assumption|]. unfold has_email.
        now apply String.eqb_eq. }
      rewrite Hnone in Hin. contradiction.
    + exfalso. assert (Hin : In u (filter (has_email e) (users db))).
      { apply filter_In. split; [assumption|]. unfold has_email.
        now apply String.eqb_eq. }
      rewrite Hnone in Hin. contradiction.
    + intros e' Hne. rewrite filter_app. cbn. unfold has_email at 2. cbn.
      apply not_eq_sym in Hne. apply String.eqb_neq in Hne. rewrite Hne.
      now rewrite app_nil_r.
    + rewrite map_app. cbn. apply NoDup_snoc; [exact Hnd|].
      intros Hin. apply in_map_iff in Hin as [x [Hx Hin]].
      assert (Hin' : In x (filter (has_email e) (users db))).
      { apply filter_In. split; [assumption|]. unfold has_email.
        now apply String.eqb_eq. }
      rewrite Hnone in Hin'. contradiction.
  - assert (Hex : existsb (has_email e) (users db) = true).
    { destruct (existsb (has_email e) (users db)) eqn:Hex; [reflexivity|].
      apply has_email_exists in Hex. rewrite Hex in Hone. discriminate. }
    rewrite Hex. rewrite with_tokens_filter, Hone. cbn [map].
    assert (Hu : In u (users db) /\ has_email e u = true).
    { apply filter_In. rewrite Hone. now left. }
    destruct Hu as [Hin Hue]. rewrite Hue. cbn [single error data]. unfold ret.
    eexists (with_tokens tokens u), _, _. split; [reflexivity|]. split.
    { rewrite getUserByEmail_cases. cbn [tick users]. rewrite Hp1.
      rewrite with_tokens_filter, Hone. cbn [map]. rewrite Hue. reflexivity. }
    cbn [users deals preferences]. unfold has_email in Hue.
    apply String.eqb_eq in Hue.
    repeat split; auto.
    + assert (u0 = u) by (eapply NoDup_map_inj; eauto; congruence).
      now subst.
    + assert (u0 = u) by (eapply NoDup_map_inj; eauto; congruence).
      now subst.
    + rewrite H in Hone. discriminate.
    + rewrite H in Hone. discriminate.
    + intros e' Hne. rewrite with_tokens_filter.
      rewrite <- (map_id (filter (has_email e') (users db))) at 2.
      apply map_ext_in. intros x Hx. apply filter_In in Hx as [_ Hx].
      unfold has_email in *. apply String.eqb_eq in Hx.
      destruct (String.eqb_spec (email x) e); [congruence|reflexivity].
    + now rewrite with_tokens_emails.
Qed.

Lemma truthy_str_iff o :
  truthy_str o = true <-> exists s, o = Some s /\ s <> EmptyString.
Proof.
  destruct o as [[|c r]|]; cbn; split; intros H; try discriminate H.
  - destruct H as [s [Hs Hne]]. injection Hs as <-. now contradiction Hne.
  - eexists. split; [reflexivity|discriminate].
  - reflexivity.
  - destruct H as [s [Hs _]]. discriminate Hs.
Qed.

Lemma deal_passes_iff now userId filters minSavings d :
  deal_passes LocalTZA now userId filters minSavings d = true <->
  Notifier.user_id d = userId /\ Notifier.is_active d = true
  /\ (forall r, f_restaurant filters = Some r -> r <> EmptyString ->
                Notifier.restaurant d = r)
  /\ (forall q, minSavings = Some q -> (q <= Notifier.savings d)%Q)
  /\ (forall v, f_expiringSoon filters = Some v -> v <> EmptyString ->
                exists e, Notifier.expiry_date d = Some e
                          /\ e <= Notifier.threeDaysFromNow LocalTZA now).
Proof.
  unfold deal_passes.
  rewrite !andb_true_iff, String.eqb_eq, Bool.eqb_true_iff. split.
  - intros [[[[Hu Ha] Hr] Hs] He]. repeat split; auto.
    + intros r Hfr Hne. rewrite Hfr in Hr. destruct r; [congruence|].
      cbn in Hr. now apply String.eqb_eq in Hr.
    + intros q ->. now apply Qle_bool_iff.
    + intros v Hfv Hne. rewrite Hfv in He. destruct v; [congruence|].
      cbn in He. destruct (Notifier.expiry_date d) as [e|]; [|discriminate].
      exists e. split; [reflexivity|]. now apply Z.leb_le.
  - intros [Hu [Ha [Hr [Hs He]]]]. repeat split; auto.
    + destruct (f_restaurant filters) as [[|c r]|]; cbn; auto.
      apply String.eqb_eq. apply Hr; [reflexivity|discriminate].
    + destruct minSavings as [q|]; auto. apply Qle_bool_iff. now apply Hs.
    + destruct (f_expiringSoon filters) as [[|c v]|]; cbn; auto.
      destruct (He (String c v) eq_refl ltac:(discriminate)) as [e [-> Hle]].
      now apply Z.leb_le.
Qed.

(** X17. When its storage call succeeds and the storage can read
    [minSavings], [getUserDeals] returns exactly the deals of the table
    that belong to the user, are active, and pass the filters that are
    present: the restaurant, the least savings, and, for any non-empty
    value of [expiringSoon], also the text "false", an expiry date that is
    set and no later than the instant at which the local clock shows the
    same time of day three days on. It changes no table. *)
Theorem getUserDeals_returns_the_active_deals_that_pass_the_filters :
  forall (now : Z) (userId : string) (filters : Filters) (db : Db),
    (forall l, Permutation l (order_by_expiry l)) ->
    plan (tick db) = None ->
    (forall s, f_minSavings filters = Some s -> s <> EmptyString ->
               numeric_in s <> None) ->
    exists ds db',
      getUserDeals plan numeric_in order_by_expiry LocalTZA now userId filters db
      = (Normal ds, db')
      /\ same_tables db' db
      /\ forall d,
           In d ds <->
           In d (deals db)
           /\ Notifier.user_id d = userId /\ Notifier.is_active d = true
           /\ (forall r, f_restaurant filters = Some r -> r <> EmptyString ->
                         Notifier.restaurant d = r)
           /\ (forall s q, f_minSavings filters = Some s -> s <> EmptyString ->
                           numeric_in s = Some q ->
                           (q <= Notifier.savings d)%Q)
           /\ (forall v, f_expiringSoon filters = Some v -> v <> EmptyString ->
                         exists e,
                           Notifier.expiry_date d = Some e
                           /\ e <= now + LocalTZA now true + 3 * 86400000
                                   - LocalTZA (now + LocalTZA now true
                                               + 3 * 86400000) false).
Proof.
  intros now userId filters db Hperm Hplan Hnum.
  unfold getUserDeals, mbind, call. rewrite Hplan.
  cbn [tick users deals preferences issued].
  assert (Hmem : forall ms d,
            In d (order_by_expiry
                    (filter (deal_passes LocalTZA now userId filters ms) (deals db)))
            <-> In d (deals db)
                /\ deal_passes LocalTZA now userId filters ms d = true).
  { intros ms d. rewrite <- filter_In. split.
    - apply Permutation_in, Permutation_sym, Hperm.
    - apply Permutation_in, Hperm. }
  destruct (truthy_str (f_minSavings filters)) eqn:Htr.
  - apply truthy_str_iff in Htr as [s [Hs Hne]]. rewrite Hs. cbn [or_empty].
    destruct (numeric_in s) as [q|] eqn:Hq; [|now destruct (Hnum s Hs Hne)].
    eexists _, _. split; [reflexivity|]. split; [repeat split|].
    intros d. rewrite Hmem, deal_passes_iff. split.
    + intros [Hin [Hu [Ha [Hr [Hsv He]]]]]. repeat split; auto.
      intros s' q' [= <-] _ Hq'. apply Hsv. congruence.
    + intros [Hin [Hu [Ha [Hr [Hsv He]]]]]. repeat split; auto.
      intros q' [= <-]. now apply (Hsv s q).
  - eexists _, _. split; [reflexivity|]. split; [repeat split|].
    intros d. rewrite Hmem, deal_passes_iff. split.
    + intros [Hin [Hu [Ha [Hr [Hsv He]]]]]. repeat split; auto.
      intros s q Hs Hne _. exfalso.
      assert (H : truthy_str (f_minSavings filters) = true)
        by (apply truthy_str_iff; eauto).
      congruence.
    + intros [Hin [Hu [Ha [Hr [Hsv He]]]]]. repeat split; auto.
      intros q H. discriminate H.
Qed.

Lemma use_deal_twice dealId ds :
  use_deal dealId (use_deal dealId ds) = use_deal dealId ds.
Proof.
  unfold use_deal. rewrite map_map. apply map_ext. intros d.
  destruct (String.eqb (Notifier.deal_id d) dealId) eqn:H; cbn; now rewrite H.
Qed.

(** X18. [POST /api/deals/:dealId/use] replies success whenever its one
    storage call succeeds, for an id no deal has as well as for a deal of
    any user. After it every row with that id has [is_active] false; every
    other row, and every other column of the rows with the id, is as it
    was, and no row is added, removed or moved. Marking twice is marking
    once. When the storage call fails, the reply is 500 and no table
    changes. *)
Theorem post_use_sets_is_active_of_the_rows_with_the_id :
  forall (dealId : string) (db : Db),
    (plan (tick db) = None ->
     exists db1,
       post_use plan dealId db = (Normal (Json200 true), db1)
       /\ users db1 = users db /\ preferences db1 = preferences db
       /\ deals db1 = use_deal dealId (deals db)
       /\ (forall d', In d' (deals db1) -> Notifier.deal_id d' = dealId ->
                      Notifier.is_active d' = false)
       /\ Forall2 (fun d d' =>
                     Notifier.deal_id d' = Notifier.deal_id d
                     /\ Notifier.user_id d' = Notifier.user_id d
                     /\ Notifier.restaurant d' = Notifier.restaurant d
                     /\ Notifier.deal_description d' = Notifier.deal_description d
                     /\ Notifier.savings d' = Notifier.savings d
                     /\ Notifier.expiry_date d' = Notifier.expiry_date d
                     /\ Notifier.is_notified d' = Notifier.is_notified d
                     /\ Notifier.is_active d'
                        = (if String.eqb (Notifier.deal_id d) dealId
                           then false else Notifier.is_active d))
                  (deals db) (deals db1))
    /\ (forall c, plan (tick db) = Some c ->
          exists db1,
            post_use plan dealId db = (Normal (Status500 c), db1)
            /\ same_tables db1 db)
    /\ Forall2 (fun d d' =>
                  (Notifier.deal_id d <> dealId /\ d' = d)
                  \/ (Notifier.deal_id d = dealId /\ d' = set_used d
                      /\ Notifier.is_active d' = false))
               (deals db) (use_deal dealId (deals db))
    /\ use_deal dealId (use_deal dealId (deals db)) = use_deal dealId (deals db)
    /\ (~ In dealId (map Notifier.deal_id (deals db)) ->
        use_deal dealId (deals db) = deals db).
Proof.
  intros dealId db. split; [|split; [|split; [|split]]].
  - intros Hp. unfold post_use, try_catch_M, markDealAsUsed, mbind, call.
    rewrite Hp. cbn. eexists. split; [reflexivity|].
    split; [reflexivity|]. split; [reflexivity|]. split; [reflexivity|].
    split.
    + intros d' Hd' Hid. unfold use_deal in Hd'.
      apply in_map_iff in Hd' as [d [<- Hd]].
      destruct (String.eqb_spec (Notifier.deal_id d) dealId) as [Heq|Hne];
        [reflexivity|].
      contradiction.
    + unfold use_deal. induction (deals db) as [|d ds IH]; cbn;
        constructor; auto.
      destruct (String.eqb (Notifier.deal_id d) dealId); cbn; repeat split.
  - intros c Hp. unfold post_use, try_catch_M, markDealAsUsed, mbind, call.
    rewrite Hp. cbn. eexists. split; [reflexivity|]. repeat split.
  - unfold use_deal. induction (deals db) as [|d ds IH]; cbn; constructor; auto.
    destruct (String.eqb_spec (Notifier.deal_id d) dealId); auto.
  - apply use_deal_twice.
  - intros Hnot. unfold use_deal.
    rewrite <- (map_id (deals db)) at 2. apply map_ext_in. intros d Hd.
    destruct (String.eqb_spec (Notifier.deal_id d) dealId) as [Heq|]; auto.
    exfalso. apply Hnot. rewrite <- Heq. now apply in_map.
Qed.

(** X19. After [markDealAsUsed] has succeeded for an id, [getUserDeals]
    returns no deal with that id, whoever asks and whatever the filters;
    every deal it returns is a row of the table as it was before the
    marking. *)
Theorem getUserDeals_after_markDealAsUsed_omits_the_deal :
  forall (now : Z) (userId dealId : string) (filters : Filters)
         (db db1 db2 : Db) (ds : list Notifier.Deal),
    (forall l, Permutation l (order_by_expiry l)) ->
    markDealAsUsed plan dealId db = (Normal tt, db1) ->
    getUserDeals plan numeric_in order_by_expiry LocalTZA now userId filters db1
    = (Normal ds, db2) ->
    forall d, In d ds -> Notifier.deal_id d <> dealId /\ In d (deals db).
Proof.
  intros now userId dealId filters db db1 db2 ds Hperm Hmark Hget d Hd.
  unfold markDealAsUsed, mbind, call in Hmark.
  destruct (plan (tick db)); [discriminate|]. cbn in Hmark.
  injection Hmark as <-.
  unfold getUserDeals, mbind, call in Hget.
  cbn [tick users deals preferences issued] in Hget.
  destruct (plan (S (tick db))); [discriminate|].
  assert (Hin : exists ms,
            In d (filter (deal_passes LocalTZA now userId filters ms)
                         (use_deal dealId (deals db)))).
  { destruct (truthy_str (f_minSavings filters)).
    - destruct (numeric_in (or_empty (f_minSavings filters))) as [q|];
        [|discriminate].
      injection Hget as <- _. exists (Some q).
      eapply Permutation_in; [apply Permutation_sym, Hperm|exact Hd].
    - injection Hget as <- _. exists None.
      eapply Permutation_in; [apply Permutation_sym, Hperm|exact Hd]. }
  destruct Hin as [ms Hin]. apply filter_In in Hin as [Hin Hpass].
  apply deal_passes_iff in Hpass as [_ [Hact _]].
  unfold use_deal in Hin. apply in_map_iff in Hin as [d0 [Heq Hd0]].
  destruct (String.eqb_spec (Notifier.deal_id d0) dealId) as [Hid|Hid].
  - subst d. cbn in Hact. discriminate.
  - subst d. auto.
Qed.

Lemma same_key_iff userId restaurant p :
  same_key userId restaurant p = true <-> Keys.pref_key p = (userId, restaurant).
Proof.
  unfold same_key, Keys.pref_key. rewrite andb_true_iff, !String.eqb_eq.
  split; [intros [-> ->]; reflexivity|intros [= -> ->]; auto].
Qed.

Lemma same_key_filter_unique userId restaurant ps :
  NoDup (map Keys.pref_key ps) ->
  filter (same_key userId restaurant) ps = []
  \/ exists p, filter (same_key userId restaurant) ps = [p].
Proof.
  induction ps as [|v ps IH]; intros Hnd; [now left|].
  cbn [map] in Hnd. inversion Hnd as [|? ? Hnotin Hnd']; subst.
  cbn [filter]. destruct (same_key userId restaurant v) eqn:Hv.
  - right. exists v. f_equal. apply filter_none. intros x Hx.
    apply not_true_is_false. intros Hk. apply Hnotin.
    apply same_key_iff in Hv, Hk. rewrite Hv, <- Hk. now apply in_map.
  - now apply IH.
Qed.

Lemma filter_both {A} (f g : A -> bool) l :
  filter f (filter g l) = filter (fun x => g x && f x) l.
Proof.
  induction l as [|x l IH]; [reflexivity|]. cbn.
  destruct (g x); cbn; [destruct (f x)|]; now rewrite IH.
Qed.

Lemma with_selected_key b userId restaurant p :
  Keys.pref_key (if same_key userId restaurant p then with_selected b p else p)
  = Keys.pref_key p.
Proof. now destruct (same_key userId restaurant p). Qed.

Lemma with_selected_filter b userId restaurant (f : Preference -> bool) ps :
  (forall p, f (if same_key userId restaurant p then with_selected b p else p)
             = f p) ->
  filter f (map (fun p => if same_key userId restaurant p
                          then with_selected b p else p) ps)
  = map (fun p => if same_key userId restaurant p then with_selected b p else p)
        (filter f ps).
Proof.
  intros Hf. induction ps as [|p ps IH]; [reflexivity|]. cbn [map filter].
  rewrite Hf. destruct (f p); cbn [map]; now rewrite IH.
Qed.

(** X20. On a preference table with unique [(user_id, restaurant)] keys,
    when the two storage calls succeed and the user is in [users] or
    already has a row for the restaurant, [getRestaurantPreferences] after
    [updateRestaurantPreference] returns exactly one row for that
    restaurant, with the value just written: a second write replaces the
    first and adds no row. The rows of the other keys, the uniqueness of
    the keys and the other tables are as before. *)
Theorem updateRestaurantPreference_then_getRestaurantPreferences :
  forall (userId restaurant : string) (isSelected : bool) (db : Db),
    NoDup (map Keys.pref_key (preferences db)) ->
    plan (tick db) = None -> plan (S (tick db)) = None ->
    existsb (same_key userId restaurant) (preferences db) = true
    \/ existsb (fun u => String.eqb (id u) userId) (users db) = true ->
    exists db1 ps db2 p,
      updateRestaurantPreference plan uuid userId restaurant isSelected db
      = (Normal tt, db1)
      /\ getRestaurantPreferences plan userId db1 = (Normal ps, db2)
      /\ filter (fun x => String.eqb (pref_restaurant x) restaurant) ps = [p]
      /\ pref_user_id p = userId /\ is_selected p = isSelected
      /\ filter (fun x => negb (same_key userId restaurant x)) (preferences db1)
         = filter (fun x => negb (same_key userId restaurant x)) (preferences db)
      /\ NoDup (map Keys.pref_key (preferences db1))
      /\ users db1 = users db /\ deals db1 = deals db.
Proof.
  intros userId restaurant b db Hnd Hp0 Hp1 Hok.
  unfold updateRestaurantPreference, getRestaurantPreferences, mbind, call.
  rewrite Hp0. cbn [tick users deals preferences issued].
  destruct (existsb (same_key userId restaurant) (preferences db)) eqn:Hex.
  - destruct (same_key_filter_unique userId restaurant (preferences db) Hnd)
      as [Hnone|[p0 Hone]].
    { exfalso. apply existsb_exists in Hex as [x [Hx Hk]].
      assert (H : In x (filter (same_key userId restaurant) (preferences db)))
        by (apply filter_In; auto).
      rewrite Hnone in H. contradiction. }
    assert (Hp0k : same_key userId restaurant p0 = true).
    { assert (H : In p0 (filter (same_key userId restaurant) (preferences db)))
        by (rewrite Hone; now left).
      now apply filter_In in H. }
    eexists _, _, _, (with_selected b p0). split; [reflexivity|].
    cbn [tick users deals preferences issued]. rewrite Hp1.
    split; [reflexivity|]. cbn [users deals preferences].
    split; [|split; [|split; [|split; [|split]]]]; auto.
    + rewrite filter_both.
      change (fun x => String.eqb (pref_user_id x) userId
                       && String.eqb (pref_restaurant x) restaurant)
        with (same_key userId restaurant).
      rewrite with_selected_filter.
      * rewrite Hone. cbn [map]. now rewrite Hp0k.
      * intros p. destruct (same_key userId restaurant p) eqn:Hk; auto.
    + cbn. unfold same_key in Hp0k. apply andb_true_iff in Hp0k as [H _].
      now apply String.eqb_eq in H.
    + rewrite with_selected_filter.
      * rewrite <- (map_id (filter _ (preferences db))) at 2.
        apply map_ext_in. intros x Hx. apply filter_In in Hx as [_ Hx].
        apply negb_true_iff in Hx. now rewrite Hx.
      * intros p. destruct (same_key userId restaurant p) eqn:Hk.
        -- change (same_key userId restaurant (with_selected b p))
             with (same_key userId restaurant p). now rewrite Hk.
        -- now rewrite Hk.
    + rewrite map_map.
      erewrite map_ext; [exact Hnd|]. intros p. apply with_selected_key.
  - destruct Hok as [Hok|Hu]; [discriminate|]. rewrite Hu.
    set (new := {| pref_id := uuid (issued db); pref_user_id := userId;
                   pref_restaurant := restaurant; is_selected := b |}).
    assert (Hnone : filter (same_key userId restaurant) (preferences db) = []).
    { apply filter_none. intros x Hx. apply not_true_is_false. intros Hk.
      assert (H : existsb (same_key userId restaurant) (preferences db) = true)
        by (apply existsb_exists; eauto).
      congruence. }
    assert (Hnew : same_key userId restaurant new = true).
    { unfold same_key. cbn. now rewrite !String.eqb_refl. }
    eexists _, _, _, new. split; [reflexivity|].
    cbn [tick users deals preferences issued]. rewrite Hp1.
    split; [reflexivity|]. cbn [users deals preferences].
    split; [|split; [|split; [|split; [|split]]]]; auto.
    + rewrite filter_both.
      change (fun x => String.eqb (pref_user_id x) userId
                       && String.eqb (pref_restaurant x) restaurant)
        with (same_key userId restaurant).
      rewrite filter_app, Hnone. cbn. now rewrite Hnew.
    + rewrite filter_app. cbn. rewrite Hnew. cbn. now rewrite app_nil_r.
    + rewrite map_app. cbn. apply NoDup_snoc; [exact Hnd|].
      intros Hin. apply in_map_iff in Hin as [x [Hx Hin]].
      assert (H : In x (filter (same_key userId restaurant) (preferences db))).
      { apply filter_In. split; [assumption|]. now apply same_key_iff. }
      rewrite Hnone in H. contradiction.
Qed.

End StoreFacts.

Lemma endpoints_reply_404_for_an_unknown_address_witness :
  fst (Store.get_deals Samples.calm_store Samples.numeric0 Samples.stored_order Samples.utc
         Samples.now0 "nobody@example.com" (Store.mkFilters None None None)
         Samples.db0)
  = Normal Store.Status404.
Proof.
  destruct (endpoints_reply_404_for_an_unknown_address Samples.calm_store
              Samples.uuid0 Samples.numeric0 Samples.stored_order Samples.utc Samples.now0
              "nobody@example.com" "KFC" true (Store.mkFilters None None None)
              Samples.db0 eq_refl (or_introl eq_refl)) as [H _].
  rewrite H. reflexivity.
Defined.

Lemma storeUserTokens_then_getUserByEmail_witness :
  exists row db1 db2,
    Store.storeUserTokens Samples.calm_store Samples.uuid0 "dora@example.com"
      Samples.tokens0 Samples.db0 = (Normal (Some row), db1)
    /\ Store.getUserByEmail Samples.calm_store "dora@example.com" db1
       = (Normal (Some row), db2)
    /\ Store.id row = "id-0".
Proof.
  destruct (storeUserTokens_then_getUserByEmail Samples.calm_store
              Samples.uuid0 "dora@example.com" Samples.tokens0 Samples.db0)
    as [row [db1 [db2 (H1 & H2 & _ & _ & _ & Hnew & _)]]].
  - repeat constructor; simpl; intuition discriminate.
  - reflexivity.
  - reflexivity.
  - exists row, db1, db2. split; [exact H1|split; [exact H2|]].
    now apply Hnew.
Defined.

Lemma getUserDeals_returns_the_active_deals_that_pass_the_filters_witness :
  exists ds db',
    Store.getUserDeals Samples.calm_store Samples.numeric0 Samples.stored_order Samples.utc
      Samples.now0 "user-a" (Store.mkFilters (Some "KFC") (Some "5") None)
      Samples.db0 = (Normal ds, db')
    /\ In Samples.deal_A ds /\ ~ In Samples.deal_C ds.
Proof.
  destruct (getUserDeals_returns_the_active_deals_that_pass_the_filters
              Samples.calm_store Samples.numeric0 Samples.stored_order Samples.utc
              Samples.now0 "user-a"
              (Store.mkFilters (Some "KFC") (Some "5") None) Samples.db0)
    as [ds [db' [H1 [_ Hiff]]]].
  - intros l. apply Permutation_refl.
  - reflexivity.
  - intros s [= <-] _. discriminate.
  - exists ds, db'. split; [exact H1|]. split.
    + apply Hiff. split; [now left|]. split; [reflexivity|].
      split; [reflexivity|]. split; [|split].
      * intros r [= <-] _. reflexivity.
      * intros s q [= <-] _ [= <-]. discriminate.
      * intros v Hv. discriminate Hv.
    + intros Hin. apply Hiff in Hin. destruct Hin as (_ & _ & _ & Hr & _).
      specialize (Hr "KFC" eq_refl). discriminate Hr. discriminate.
Defined.

Lemma getUserDeals_after_markDealAsUsed_omits_the_deal_witness :
  Notifier.deal_id Samples.deal_C <> "deal-a"
  /\ In Samples.deal_C (Store.deals Samples.db0).
Proof.
  eapply (getUserDeals_after_markDealAsUsed_omits_the_deal Samples.calm_store
            Samples.numeric0 Samples.stored_order Samples.utc Samples.now0 "user-a"
            "deal-a" (Store.mkFilters None None None) Samples.db0).
  - intros l. apply Permutation_refl.
  - reflexivity.
  - reflexivity.
  - right. now left.
Defined.

Lemma updateRestaurantPreference_then_getRestaurantPreferences_witness :
  exists db1 ps db2 p,
    Store.updateRestaurantPreference Samples.calm_store Samples.uuid0 "user-a"
      "KFC" false Samples.db0 = (Normal tt, db1)
    /\ Store.getRestaurantPreferences Samples.calm_store "user-a" db1
       = (Normal ps, db2)
    /\ filter (fun x => String.eqb (Store.pref_restaurant x) "KFC") ps = [p]
    /\ Store.is_selected p = false.
Proof.
  destruct (updateRestaurantPreference_then_getRestaurantPreferences
              Samples.calm_store Samples.uuid0 "user-a" "KFC" false Samples.db0)
    as [db1 [ps [db2 [p (H1 & H2 & H3 & _ & H5 & _)]]]].
  - repeat constructor; simpl; intuition discriminate.
  - reflexivity.
  - reflexivity.
  - now left.
  - exists db1, ps, db2, p. auto.
Defined.

(* ===================================================================== *)
(** * A used deal and the notifier *)
(* ===================================================================== *)

Section UsedDealFacts.

Import Notifier Views.

Variable plan : nat -> bool.
Variable LocalTZA : Zone.

Lemma mailed_app es1 es2 : mailed (es1 ++ es2) = (mailed es1 ++ mailed es2)%list.
Proof. unfold mailed. apply flat_map_app. Qed.

Lemma mark_notified_keeps (P : Deal -> Prop) dealIds ds :
  (forall d, P d -> P (set_notified d)) ->
  Forall P ds -> Forall P (mark_notified dealIds ds).
Proof.
  intros HP Hall. unfold mark_notified. apply Forall_forall. intros d Hd.
  apply in_map_iff in Hd as [x [<- Hx]]. rewrite Forall_forall in Hall.
  destruct (id_in dealIds x); auto.
Qed.

(** The deals a loop mails are rows of the table as it stands at the turn,
    so they keep what holds of every row and is kept by the update of
    [is_notified]; and they are active. *)
Lemma for_of_notify_mails_rows (P : Deal -> Prop) horizon us :
  (forall d, P d -> P (set_notified d)) ->
  forall w c w',
    for_of us (notify_user plan horizon) w = (c, w') ->
    Forall P (deals w) ->
    exists new,
      events w' = (events w ++ new)%list
      /\ Forall (fun d => P d /\ is_active d = true) (mailed new).
Proof.
  intros HP. induction us as [|v rest IH]; intros w c w' Hrun Hinv.
  - cbn in Hrun. injection Hrun as <- <-. exists []. rewrite app_nil_r.
    split; [reflexivity|constructor].
  - cbn [for_of] in Hrun. unfold mbind in Hrun.
    rewrite notify_user_cases in Hrun.
    assert (Hgo : forall w1 es,
              events w1 = (events w ++ es)%list ->
              Forall P (deals w1) ->
              Forall (fun d => P d /\ is_active d = true) (mailed es) ->
              for_of rest (notify_user plan horizon) w1 = (c, w') ->
              exists new,
                events w' = (events w ++ new)%list
                /\ Forall (fun d => P d /\ is_active d = true) (mailed new)).
    { intros w1 es Hes Hinv1 Hok Hrest.
      destruct (IH w1 c w' Hrest Hinv1) as [new [Hnew Hall]].
      exists (es ++ new)%list. split; [now rewrite Hnew, Hes, app_assoc|].
      rewrite mailed_app. apply Forall_app. now split. }
    destruct (expiringSoon v) eqn:Hen; cbn [negb] in Hrun.
    2:{ apply (Hgo w []); auto. now rewrite app_nil_r. }
    destruct (plan (tick w)).
    { injection Hrun as <- <-. exists []. cbn. split; [reflexivity|constructor]. }
    destruct (due horizon v (deals w)) as [|d ds'] eqn:Hdue.
    { eapply (Hgo _ []); [| | |exact Hrun]; [reflexivity|exact Hinv|constructor]. }
    cbv zeta in Hrun.
    assert (Hmail : Forall (fun x => P x /\ is_active x = true) (d :: ds')).
    { rewrite <- Hdue. apply Forall_forall. intros x Hx. unfold due in Hx.
      apply filter_In in Hx as [Hx He]. rewrite Forall_forall in Hinv.
      split; [now apply Hinv|]. unfold expiring in He.
      rewrite !andb_true_iff in He. destruct He as [[[[_ Ha] _] _] _].
      now apply Bool.eqb_prop in Ha. }
    destruct (plan (S (tick w))).
    { injection Hrun as <- <-. eexists. split; [reflexivity|].
      unfold mailed. cbn [flat_map]. now rewrite app_nil_r. }
    destruct (plan (S (S (tick w)))).
    + eapply Hgo; [| | |exact Hrun]; [reflexivity|exact Hinv|].
      unfold mailed. cbn [flat_map]. cbn [app]. now rewrite app_nil_r.
    + eapply Hgo; [| | |exact Hrun]; [reflexivity| |].
      * cbn [deals advance]. now apply mark_notified_keeps.
      * unfold mailed. cbn [flat_map]. cbn [app]. now rewrite app_nil_r.
Qed.

Lemma sweep_mails_rows (P : Deal -> Prop) now w new :
  (forall d, P d -> P (set_notified d)) ->
  Forall P (deals w) ->
  events (sweep plan LocalTZA now w) = (events w ++ new)%list ->
  Forall (fun d => P d /\ is_active d = true) (mailed new).
Proof.
  intros HP Hinv Hev.
  unfold sweep in Hev. rewrite checkAndNotifyExpiringDeals_cases in Hev.
  destruct (plan (tick w)).
  - cbn in Hev. apply app_inv_head in Hev. subst new. constructor.
  - destruct (for_of (users w) (notify_user plan (threeDaysFromNow LocalTZA now))
                {| users := users w; deals := deals w; events := events w;
                   tick := S (tick w) |}) as [c w'] eqn:Hrun.
    destruct (for_of_notify_mails_rows P _ _ HP _ _ _ Hrun Hinv)
      as [new' [Hnew Hok]].
    cbn [events] in Hnew.
    destruct c as [[]|e]; cbn in Hev; rewrite Hnew in Hev.
    + apply app_inv_head in Hev. now subst new'.
    + rewrite <- app_assoc in Hev. apply app_inv_head in Hev. subst new.
      rewrite mailed_app. apply Forall_app. split; [exact Hok|]. constructor.
Qed.

Lemma use_deal_inactive dealId ds :
  Forall (fun d => deal_id d = dealId -> is_active d = false)
         (Store.use_deal dealId ds).
Proof.
  unfold Store.use_deal. apply Forall_forall. intros d Hd.
  apply in_map_iff in Hd as [x [<- Hx]].
  destruct (String.eqb (deal_id x) dealId) eqn:He; [reflexivity|].
  intros H. apply String.eqb_neq in He. contradiction.
Qed.

(** X21. After [markDealAsUsed] succeeds for an id, a run of the notifier
    over the resulting [deals] table lists no deal with that id in any mail
    it sends or attempts, whatever the expiry date of the deal and whichever
    calls of the run fail. *)
Theorem sweep_after_markDealAsUsed_never_mails_the_deal :
  forall (store_plan : nat -> option string) (dealId : string)
         (db db1 : Store.Db) (now : Z) (w : World) (new : list Event),
    Store.markDealAsUsed store_plan dealId db = (Normal tt, db1) ->
    deals w = Store.deals db1 ->
    events (sweep plan LocalTZA now w) = (events w ++ new)%list ->
    Forall (fun d => deal_id d <> dealId) (mailed new).
Proof.
  intros store_plan dealId db db1 now w new Hused Hw Hev.
  assert (Hinv : Forall (fun d => deal_id d = dealId -> is_active d = false)
                        (deals w)).
  { rewrite Hw. unfold Store.markDealAsUsed, mbind, Store.call in Hused.
    destruct (store_plan (Store.tick db)); [discriminate|].
    injection Hused as <-. cbn [Store.deals]. apply use_deal_inactive. }
  eapply Forall_impl; [|eapply sweep_mails_rows; [|exact Hinv|exact Hev]].
  - intros d [Hd Ha] Hid. rewrite (Hd Hid) in Ha. discriminate.
  - intros d Hd Hid. exact (Hd Hid).
Qed.

End UsedDealFacts.

Lemma sweep_after_markDealAsUsed_never_mails_the_deal_witness :
  Forall (fun d => Notifier.deal_id d <> "deal-a")
         (Views.mailed
            (Notifier.events
               (Notifier.sweep Samples.never Samples.utc Samples.now0 Samples.world_used))).
Proof.
  apply (sweep_after_markDealAsUsed_never_mails_the_deal Samples.never
           Samples.utc Samples.calm_store "deal-a" Samples.db0 Samples.db_used
           Samples.now0 Samples.world_used
           (Notifier.events
              (Notifier.sweep Samples.never Samples.utc Samples.now0 Samples.world_used)));
    reflexivity.
Defined.
